(** * TitanView fixture generators: a shallow embedding and its properties

    Two scripts are embedded here:
    - [examples/generate_sample.py], the small fixed-layout [.tvts] fixture
      (module [Sample]);
    - [scripts/gen_1gb.py], the chunked benchmark-file generator
      (module [Gen1gb]).

    Bytes are integers in [0, 256); a [bytes] object is a list of them.
    Python integers are unbounded, so they are [Z] without wrap-around; the
    places where the scripts pack them into fixed-width fields go through
    [struct_pack], which raises where [struct.pack] does. *)

From Stdlib Require Import ZArith List String Ascii Lia Bool DecimalString.
Import ListNotations.
Open Scope Z_scope.

(** ** Python values and primitives used by both scripts *)

Module Py.

Definition bytes := list Z.

(** The exceptions the embedded code can raise. *)
Inductive exn : Type :=
| KeyError      (* a dict lookup on a missing key *)
| StructError   (* struct.pack on a value that does not fit its field *)
| ValueError.   (* bytes(...) on an integer outside range(256) *)

(** The outcome of running a piece of code with a bounded number of loop
    iterations: a value, an exception, or the iteration budget ran out. *)
Inductive outcome (A : Type) : Type :=
| Done (a : A)
| Raised (e : exn)
| OutOfFuel.
Arguments Done {A} a.
Arguments Raised {A} e.
Arguments OutOfFuel {A}.

Definition bind {A B} (c : outcome A) (k : A -> outcome B) : outcome B :=
  match c with
  | Done a => k a
  | Raised e => Raised e
  | OutOfFuel => OutOfFuel
  end.

(** [len(l)] *)
Definition len {A} (l : list A) : Z := Z.of_nat (List.length l).

(** [l[:n]] and [l[n:]] for [0 <= n]; a negative [n] never reaches them with
    a non-empty list in the embedded code. *)
Definition take {A} (n : Z) (l : list A) : list A := firstn (Z.to_nat n) l.
Definition drop {A} (n : Z) (l : list A) : list A := skipn (Z.to_nat n) l.

(** [l[a:b]] for [0 <= a <= b]. *)
Definition slice {A} (l : list A) (a b : Z) : list A := take (b - a) (drop a l).

(** [l[i]] for [0 <= i], [None] past the end. *)
Definition item {A} (l : list A) (i : Z) : option A := nth_error l (Z.to_nat i).

(** [buf[a:b] = data] on a bytearray, for [0 <= a <= b <= len(buf)]. *)
Definition slice_assign (buf : bytes) (a b : Z) (data : bytes) : bytes :=
  take a buf ++ data ++ drop b buf.

(** [b"\x00" * n]; empty for [n <= 0], as in Python. *)
Definition zeros (n : Z) : bytes := repeat 0 (Z.to_nat n).

(** A [str] literal read as the [bytes] literal with the same ASCII text. *)
Definition b (s : string) : bytes :=
  map (fun c => Z.of_N (N_of_ascii c)) (list_ascii_of_string s).

(** [bytes(ints)]: every integer has to be in [range(256)]. *)
Definition bytes_of_ints (ints : list Z) : outcome bytes :=
  if forallb (fun x => (0 <=? x) && (x <? 256)) ints then Done ints
  else Raised ValueError.

(** The [n] low-order bytes of [v], least significant first. *)
Fixpoint le_bytes (n : nat) (v : Z) : bytes :=
  match n with
  | O => []
  | S n' => (v mod 256) :: le_bytes n' (v / 256)
  end.

(** The value of a little-endian byte string, read as unsigned. *)
Fixpoint le_decode (l : bytes) : Z :=
  match l with
  | [] => 0
  | x :: l' => x + 256 * le_decode l'
  end.

(** The field codes of [struct.pack] the scripts use, all with the ["<"]
    prefix (little-endian, no padding). *)
Inductive field : Type := fB | fH | fI | fQ | fq.

Definition field_size (f : field) : nat :=
  match f with fB => 1 | fH => 2 | fI => 4 | fQ => 8 | fq => 8 end%nat.

Definition field_fits (f : field) (v : Z) : bool :=
  match f with
  | fq => (- 2 ^ 63 <=? v) && (v <? 2 ^ 63)
  | _ => (0 <=? v) && (v <? 2 ^ (8 * Z.of_nat (field_size f)))
  end.

(** [struct.pack("<" + codes, *values)] *)
Fixpoint struct_pack (fields : list (field * Z)) : outcome bytes :=
  match fields with
  | [] => Done []
  | (f, v) :: rest =>
      if field_fits f v
      then bind (struct_pack rest) (fun tl => Done (le_bytes (field_size f) v ++ tl))
      else Raised StructError
  end.

End Py.

Import Py.

Notation "x <- c ;; k" := (bind c (fun x => k))
  (at level 61, c at next level, right associativity).
Notation "' pat <- c ;; k" := (bind c (fun x => match x with pat => k end))
  (at level 61, pat pattern, c at next level, right associativity).

(** ** examples/generate_sample.py *)

Module Sample.

(** One step of the generator of the high-entropy section:
    [seed = (seed * 1103515245 + 12345) & 0xFFFFFFFF]. *)
Definition lcg_next (seed : Z) : Z :=
  Z.land (seed * 1103515245 + 12345) 0xFFFFFFFF.

(** The byte appended after a step: [(seed >> 16) & 0xFF]. *)
Definition lcg_byte (seed : Z) : Z := Z.land (Z.shiftr seed 16) 0xFF.

(** [for _ in range(n): seed = ...; random_data.append(...)] *)
Fixpoint lcg_run (n : nat) (seed : Z) (random_data : list Z) : list Z * Z :=
  match n with
  | O => (random_data, seed)
  | S n' =>
      let seed := lcg_next seed in
      lcg_run n' seed (random_data ++ [lcg_byte seed])
  end.

(** The integers of table entry [i], before [bytes(...)]. *)
Definition entry_ints (i : Z) : list Z :=
  [i; i * 2; i * 3; i * 4]
  ++ map (fun j => Z.lxor (i + j) 0x55) [4; 5; 6; 7; 8; 9; 10; 11; 12; 13; 14; 15].

Definition name : bytes := b "example_data_file".

Definition text : bytes :=
  b "This is sample text data in the TitanView test file format." ++ [10]
  ++ b "It demonstrates various data types and patterns." ++ [10]
  ++ b "You can use the Structure Inspector to parse the header." ++ [10].

(** [f.write(data)] on the file opened for writing. *)
Definition write (f : bytes) (data : bytes) : bytes := f ++ data.

(** The table loop, [for i in range(16)], over the indices still to do. *)
Fixpoint write_entries (f : bytes) (indices : list Z) : outcome bytes :=
  match indices with
  | [] => Done f
  | i :: rest =>
      entry <- bytes_of_ints (entry_ints i) ;;
      write_entries (write f entry) rest
  end.

Definition range16 : list Z := map Z.of_nat (seq 0 16).

(** [main()]: the contents of [sample_file.tvts] when the file is closed. *)
Definition main : outcome bytes :=
  let f := [] in
  let f := write f (b "TVTS") in
  version <- struct_pack [(fB, 1); (fB, 5)] ;;
  let f := write f version in
  flags <- struct_pack [(fH, 0x0011)] ;;
  let f := write f flags in
  ftype <- struct_pack [(fB, 3)] ;;
  let f := write f ftype in
  let f := write f [0; 0; 0] in
  data_offset <- struct_pack [(fI, 64)] ;;
  let f := write f data_offset in
  data_size <- struct_pack [(fI, 256)] ;;
  let f := write f data_size in
  entry_count <- struct_pack [(fH, 16)] ;;
  let f := write f entry_count in
  checksum <- struct_pack [(fH, 0xABCD)] ;;
  let f := write f checksum in
  timestamp <- struct_pack [(fQ, 1706500000)] ;;
  let f := write f timestamp in
  let f := write f (name ++ zeros (32 - len name)) in
  f <- write_entries f range16 ;;
  let f := write f text in
  let seed := 0xDEADBEEF in
  let random_data := fst (lcg_run 128 seed []) in
  random_bytes <- bytes_of_ints random_data ;;
  let f := write f random_bytes in
  let f := write f (zeros 64) in
  Done f.

(** The generator of section 9 of the design, stated on its own: the state
    update and the output byte, with the modulus and the shift spelled out. *)
Definition spec_lcg_next (state : Z) : Z := (state * 1103515245 + 12345) mod 2 ^ 32.
Definition spec_lcg_byte (state : Z) : Z := (state / 2 ^ 16) mod 2 ^ 8.

Fixpoint spec_lcg_stream (n : nat) (state : Z) : list Z :=
  match n with
  | O => []
  | S n' => let state := spec_lcg_next state in
            spec_lcg_byte state :: spec_lcg_stream n' state
  end.

End Sample.

(** ** scripts/gen_1gb.py *)

Module Gen1gb.

(** *** The pseudo-random generator

    The script draws from the interpreter's [random.Random], which is not
    part of the repository.  It is taken as a parameter: a type of generator
    states, the four methods the script calls (each returns the drawn value
    and the advanced state; [randbelow] is the draw behind [choice]), and the
    ranges the library documents for them. *)
Class Random : Type := {
  rng_state : Type;
  (** [random.Random(seed)] *)
  Random_seed : Z -> rng_state;
  (** [rng.randint(a, b)] *)
  randint : rng_state -> Z -> Z -> Z * rng_state;
  (** the index [rng.choice(seq)] draws, for [n = len(seq)] *)
  randbelow : rng_state -> Z -> Z * rng_state;
  (** [rng.getrandbits(k)] *)
  getrandbits : rng_state -> Z -> Z * rng_state;
  (** [rng.randbytes(n)] *)
  randbytes : rng_state -> Z -> bytes * rng_state;
  randint_range : forall rng a b, a <= b ->
    a <= fst (randint rng a b) <= b;
  randbelow_range : forall rng n, 0 < n ->
    0 <= fst (randbelow rng n) < n;
  getrandbits_range : forall rng k, 0 <= k ->
    0 <= fst (getrandbits rng k) < 2 ^ k;
  randbytes_len : forall rng n, 0 <= n ->
    len (fst (randbytes rng n)) = n
}.

(** *** Module-level constants *)

(** [MAGICS]: a dict from names to byte patterns, in source order. *)
Definition MAGICS : list (string * bytes) :=
  [ ("ELF"%string,  [0x7f] ++ b "ELF" ++ [0x02; 0x01; 0x01; 0x00] ++ zeros 8);
    ("PNG"%string,  [0x89] ++ b "PNG" ++ [13; 10; 0x1a; 10] ++ zeros 8);
    ("PDF"%string,  b "%PDF-1.7" ++ [10] ++ zeros 6);
    ("ZIP"%string,  b "PK" ++ [0x03; 0x04] ++ zeros 12);
    ("JPEG"%string, [0xff; 0xd8; 0xff; 0xe0] ++ zeros 12) ].

(** [d[key]] on a dict with string keys. *)
Fixpoint dict_get {V} (d : list (string * V)) (key : string) : outcome V :=
  match d with
  | [] => Raised KeyError
  | (k, v) :: d' => if String.eqb k key then Done v else dict_get d' key
  end.

(** [d[key] = v] on a dict with integer keys: a key already present keeps
    its place in the iteration order and takes the new value; a new key goes
    last. *)
Fixpoint dict_set {V} (d : list (Z * V)) (key : Z) (v : V) : list (Z * V) :=
  match d with
  | [] => [(key, v)]
  | (k, v') :: d' =>
      if k =? key then (k, v) :: d' else (k, v') :: dict_set d' key v
  end.

(** What one run is driven by.  In the script these are the constants
    [TARGET_SIZE] and [MAGIC_OFFSETS] of the module and the locals
    [SECTION_SIZE], [CHUNK] and [block_size] of [main]; [shipped] below holds
    the values the script gives them. *)
Record plan : Type := {
  TARGET_SIZE : Z;
  MAGIC_OFFSETS : list (Z * string);
  SECTION_SIZE : Z;
  CHUNK : Z;
  block_size : Z
}.

Definition shipped : plan := {|
  TARGET_SIZE := 1 * 1024 * 1024 * 1024;
  MAGIC_OFFSETS :=
    [ (0,                                "ELF"%string);
      (1024,                             "PNG"%string);
      (50 * 1024 * 1024,                 "ELF"%string);
      (100 * 1024 * 1024,                "PDF"%string);
      (200 * 1024 * 1024,                "ZIP"%string);
      (333 * 1024 * 1024,                "JPEG"%string);
      (500 * 1024 * 1024,                "ELF"%string);
      (512 * 1024 * 1024,                "PNG"%string);
      (750 * 1024 * 1024,                "PDF"%string);
      (900 * 1024 * 1024,                "ZIP"%string);
      (* TARGET_SIZE - 1024 *)
      (1 * 1024 * 1024 * 1024 - 1024,    "ELF"%string) ];
  SECTION_SIZE := 256 * 1024 * 1024;
  CHUNK := 4 * 1024 * 1024;
  block_size := 1 * 1024 * 1024
|}.

(** *** String formatting of [gen_ascii_log] *)

(** [str(n)] for an integer, as the f-string renders [{ts}]. *)
Definition str_int (n : Z) : string := NilZero.string_of_int (Z.to_int n).

(** [f"{s:<width>s}"]: padded with spaces on the right, never cut. *)
Definition pad (width : nat) (s : string) : string :=
  String.append s
    (string_of_list_ascii (repeat " "%char (width - String.length s)%nat)).

Definition levels : list string :=
  [ "INFO"; "WARN"; "ERROR"; "DEBUG"; "TRACE" ]%string.
Definition modules : list string :=
  [ "server"; "db"; "auth"; "cache"; "net"; "io"; "parser"; "render" ]%string.
Definition messages : list string :=
  [ "request processed successfully";
    "connection established";
    "cache miss for key";
    "timeout waiting for response";
    "retrying operation";
    "invalid input received";
    "shutting down gracefully";
    "loaded configuration from disk";
    "spawned worker thread";
    "checksum verification passed" ]%string.

(** [f"[{ts}] {level:5s} {mod:8s} | {msg}\n".encode("ascii")] *)
Definition log_line (ts : Z) (level mod_ msg : string) : bytes :=
  b "[" ++ b (str_int ts) ++ b "] " ++ b (pad 5 level) ++ b " "
  ++ b (pad 8 mod_) ++ b " | " ++ b msg ++ [10].

Section Generator.

Context {R : Random}.

(** [rng.choice(seq)] on a list of strings. *)
Definition choice (rng : rng_state) (seq : list string) : string * rng_state :=
  let (i, rng) := randbelow rng (len seq) in
  (nth (Z.to_nat i) seq EmptyString, rng).

(** *** The profile generators

    Each takes the shared generator state and returns the bytes together
    with the state it leaves behind.  The [while] loops take an iteration
    budget. *)

(** The loop of [gen_ascii_log], from the state [(buf, ts)]. *)
Fixpoint ascii_log_loop (fuel : nat) (rng : rng_state) (size : Z)
    (buf : bytes) (ts : Z) : outcome (bytes * rng_state) :=
  match fuel with
  | O => OutOfFuel
  | S fuel' =>
      if len buf <? size then
        let (d, rng) := randint rng 1 5000 in
        let ts := ts + d in
        let (level, rng) := choice rng levels in
        let (mod_, rng) := choice rng modules in
        let (msg, rng) := choice rng messages in
        let line := log_line ts level mod_ msg in
        ascii_log_loop fuel' rng size (buf ++ line) ts
      else Done (buf, rng)
  end.

Definition gen_ascii_log (fuel : nat) (rng : rng_state) (size : Z)
    : outcome (bytes * rng_state) :=
  '(buf, rng) <- ascii_log_loop fuel rng size [] 1700000000 ;;
  Done (take size buf, rng).

(** [rng.getrandbits(8) for _ in range(n)], drawn in order. *)
Fixpoint draw_bytes (n : nat) (rng : rng_state) : list Z * rng_state :=
  match n with
  | O => ([], rng)
  | S n' =>
      let (x, rng) := getrandbits rng 8 in
      let (xs, rng) := draw_bytes n' rng in
      (x :: xs, rng)
  end.

(** The loop of [gen_structured_records], from the state [(buf, rec_id)]. *)
Fixpoint records_loop (fuel : nat) (rng : rng_state) (size : Z)
    (buf : bytes) (rec_id : Z) : outcome (bytes * rng_state) :=
  match fuel with
  | O => OutOfFuel
  | S fuel' =>
      if len buf <? size then
        let (jitter, rng) := randint rng 0 50 in
        let ts := 1700000000 + rec_id * 100 + jitter in
        let (val, rng) := randint rng 0 1000000 in
        let (ints, rng) := draw_bytes 16 rng in
        payload <- bytes_of_ints ints ;;
        packed <- struct_pack [(fI, rec_id); (fq, ts); (fI, val)] ;;
        records_loop fuel' rng size (buf ++ packed ++ payload) (rec_id + 1)
      else Done (buf, rng)
  end.

Definition gen_structured_records (fuel : nat) (rng : rng_state) (size : Z)
    : outcome (bytes * rng_state) :=
  '(buf, rng) <- records_loop fuel rng size [] 0 ;;
  Done (take size buf, rng).

Definition gen_random_data (rng : rng_state) (size : Z)
    : outcome (bytes * rng_state) :=
  Done (randbytes rng size).

Definition gen_zeros (size : Z) : bytes := zeros size.

(** *** The chunked writer *)

(** The variables [main] updates while the file is open: the generator, the
    running offset [written], and what [f.write] has put in the file. *)
Record wstate : Type := {
  rng : rng_state;
  written : Z;
  sink : bytes
}.

(** The body of [for offset, name in MAGIC_OFFSETS], from the dict built so
    far. *)
Fixpoint build_magic_map (offsets : list (Z * string))
    (magic_map : list (Z * bytes)) : outcome (list (Z * bytes)) :=
  match offsets with
  | [] => Done magic_map
  | (offset, name) :: rest =>
      mdata <- dict_get MAGICS name ;;
      build_magic_map rest (dict_set magic_map offset mdata)
  end.

(** One turn of [for mo, mdata in magic_map.items()]. *)
Definition plant_one (written : Z) (chunk : bytes) (entry : Z * bytes) : bytes :=
  let (mo, mdata) := entry in
  let rel := mo - written in
  if (0 <=? rel) && (rel <? len chunk) && (rel + len mdata <=? len chunk)
  then slice_assign chunk rel (rel + len mdata) mdata
  else chunk.

(** The whole [for] loop over the dict, in insertion order. *)
Definition plant_magics (magic_map : list (Z * bytes)) (written : Z)
    (chunk : bytes) : bytes :=
  fold_left (plant_one written) magic_map chunk.

(** The four [while section_written < ...] loops of [main] have one body:
    size the chunk, generate it, plant the magics, write it, advance.  They
    differ in the bound ([SECTION_SIZE] or [remaining]), the chunk step
    ([CHUNK] or [block_size]) and the generator, which in the last loop
    depends on [block_idx].  [chunk_loop] is that body; the first three
    loops ignore [block_idx]. *)
Fixpoint chunk_loop
    (gen : Z -> rng_state -> Z -> outcome (bytes * rng_state))
    (magic_map : list (Z * bytes)) (bound step : Z)
    (fuel : nat) (st : wstate) (section_written block_idx : Z)
    : outcome wstate :=
  match fuel with
  | O => OutOfFuel
  | S fuel' =>
      if section_written <? bound then
        let chunk_size := Z.min step (bound - section_written) in
        '(data, rng') <- gen block_idx (rng st) chunk_size ;;
        let chunk := plant_magics magic_map (written st) data in
        chunk_loop gen magic_map bound step fuel'
          {| rng := rng';
             written := written st + chunk_size;
             sink := sink st ++ chunk |}
          (section_written + chunk_size) (block_idx + 1)
      else Done st
  end.

(** The generator of the mixed section: zeros on even blocks, random bytes
    on odd ones. *)
Definition gen_mixed (block_idx : Z) (rng : rng_state) (size : Z)
    : outcome (bytes * rng_state) :=
  if block_idx mod 2 =? 0 then Done (gen_zeros size, rng)
  else gen_random_data rng size.

(** The part of [main] that decides the file: the generator is seeded, the
    dict of magics is built, and the four sections are written. *)
Definition generate (p : plan) (fuel : nat) : outcome wstate :=
  let rng := Random_seed 42 in
  magic_map <- build_magic_map (MAGIC_OFFSETS p) [] ;;
  let st := {| rng := rng; written := 0; sink := [] |} in
  st <- chunk_loop (fun _ => gen_ascii_log fuel) magic_map
          (SECTION_SIZE p) (CHUNK p) fuel st 0 0 ;;
  st <- chunk_loop (fun _ => gen_structured_records fuel) magic_map
          (SECTION_SIZE p) (CHUNK p) fuel st 0 0 ;;
  st <- chunk_loop (fun _ => gen_random_data) magic_map
          (SECTION_SIZE p) (CHUNK p) fuel st 0 0 ;;
  let remaining := TARGET_SIZE p - written st in
  chunk_loop gen_mixed magic_map remaining (block_size p) fuel st 0 0.

(** The file a run leaves when it ends. *)
Definition output (run : outcome wstate) : option bytes :=
  match run with
  | Done st => Some (sink st)
  | _ => None
  end.

(** What a run takes from outside: the two readings of the clock and the
    directory the script sits in. *)
Record env : Type := {
  time_start : Z;
  time_end : Z;
  script_dir : string
}.

(** What a run leaves behind: the file, and the figures it prints. *)
Record result : Type := {
  output_path : string;
  file : bytes;
  elapsed : Z;
  actual_size : Z;
  planted : Z
}.

Definition main (p : plan) (fuel : nat) (e : env) : outcome result :=
  let start := time_start e in
  st <- generate p fuel ;;
  Done {| output_path := String.append (script_dir e) "/../test-fixtures/bench_1gb.bin";
          file := sink st;
          elapsed := time_end e - start;
          actual_size := len (sink st);
          planted := len (MAGIC_OFFSETS p) |}.

End Generator.

(** *** A concrete generator

    The linear congruential generator of [generate_sample.py], with the four
    draws of a [Random] on top of it: every draw advances the state once
    and reduces the high bits into the requested range.  It stands in for
    the interpreter's generator wherever a run has to be evaluated
    ([Lcg.lcg_random] below). *)

Definition lcg_draw (s : Z) : Z * Z :=
  let s := Sample.lcg_next s in (Z.shiftr s 16, s).

Fixpoint lcg_bytes (n : nat) (s : Z) : bytes * Z :=
  match n with
  | O => ([], s)
  | S n' =>
      let (x, s) := lcg_draw s in
      let (xs, s) := lcg_bytes n' s in
      (x mod 256 :: xs, s)
  end.

Definition lcg_randint (s : Z) (a b : Z) : Z * Z :=
  let (x, s) := lcg_draw s in (a + x mod (b - a + 1), s).

Definition lcg_randbelow (s : Z) (n : Z) : Z * Z :=
  let (x, s) := lcg_draw s in (x mod n, s).

Definition lcg_getrandbits (s : Z) (k : Z) : Z * Z :=
  let (x, s) := lcg_draw s in (x mod 2 ^ k, s).

Definition lcg_randbytes (s : Z) (n : Z) : bytes * Z :=
  lcg_bytes (Z.to_nat n) s.

(** *** Plans small enough to run

    Sections of 96 bytes in chunks of 64, a mixed tail of 72 bytes in blocks
    of 16, and four magics, one of which (at 56) runs over the first chunk
    boundary. *)
Definition small : plan := {|
  TARGET_SIZE := 360;
  MAGIC_OFFSETS :=
    [ (0, "ELF"%string); (56, "ZIP"%string); (100, "PDF"%string);
      (288, "JPEG"%string) ];
  SECTION_SIZE := 96;
  CHUNK := 64;
  block_size := 16
|}.

(** The same plan cut into chunks of 32 bytes. *)
Definition small32 : plan := {|
  TARGET_SIZE := TARGET_SIZE small;
  MAGIC_OFFSETS := MAGIC_OFFSETS small;
  SECTION_SIZE := SECTION_SIZE small;
  CHUNK := 32;
  block_size := block_size small
|}.

(** A plan with two magics that overlap inside the first chunk. *)
Definition overlapping : plan := {|
  TARGET_SIZE := 360;
  MAGIC_OFFSETS := [ (0, "ELF"%string); (8, "PNG"%string) ];
  SECTION_SIZE := 96;
  CHUNK := 64;
  block_size := 16
|}.

End Gen1gb.

(** * Properties *)

(** ** The concrete generator is a [Random] *)

Module Lcg.

Import Gen1gb.

Lemma lcg_randint_range s a b : a <= b -> a <= fst (lcg_randint s a b) <= b.
Proof.
  intros Hab. unfold lcg_randint, lcg_draw. cbn [fst].
  pose proof (Z.mod_pos_bound (Z.shiftr (Sample.lcg_next s) 16) (b - a + 1)).
  lia.
Qed.

Lemma lcg_randbelow_range s n : 0 < n -> 0 <= fst (lcg_randbelow s n) < n.
Proof.
  intros Hn. unfold lcg_randbelow, lcg_draw. cbn [fst].
  now apply Z.mod_pos_bound.
Qed.

Lemma lcg_getrandbits_range s k : 0 <= k -> 0 <= fst (lcg_getrandbits s k) < 2 ^ k.
Proof.
  intros Hk. unfold lcg_getrandbits, lcg_draw. cbn [fst].
  apply Z.mod_pos_bound. now apply Z.pow_pos_nonneg.
Qed.

Lemma lcg_bytes_length n : forall s, List.length (fst (lcg_bytes n s)) = n.
Proof.
  induction n as [|n IH]; intros s; [reflexivity|].
  cbn [lcg_bytes]. destruct (lcg_draw s) as [x s1].
  specialize (IH s1). destruct (lcg_bytes n s1) as [xs s2].
  cbn [fst List.length] in *. now rewrite IH.
Qed.

Lemma lcg_randbytes_len s n : 0 <= n -> len (fst (lcg_randbytes s n)) = n.
Proof.
  intros Hn. unfold len, lcg_randbytes. rewrite lcg_bytes_length. lia.
Qed.

#[export] Instance lcg_random : Random := {|
  rng_state := Z;
  Random_seed := fun seed => seed;
  randint := lcg_randint;
  randbelow := lcg_randbelow;
  getrandbits := lcg_getrandbits;
  randbytes := lcg_randbytes;
  randint_range := lcg_randint_range;
  randbelow_range := lcg_randbelow_range;
  getrandbits_range := lcg_getrandbits_range;
  randbytes_len := lcg_randbytes_len
|}.

End Lcg.
Export Lcg.

(** ** Lists indexed by integers *)

Module PyFacts.

Lemma len_nonneg {A} (l : list A) : 0 <= len l.
Proof. unfold len. lia. Qed.

Lemma len_app {A} (l1 l2 : list A) : len (l1 ++ l2) = len l1 + len l2.
Proof. unfold len. rewrite length_app. lia. Qed.

Lemma len_cons {A} (x : A) (l : list A) : len (x :: l) = 1 + len l.
Proof. unfold len. cbn [List.length]. lia. Qed.

Lemma len_take {A} (n : Z) (l : list A) :
  0 <= n <= len l -> len (take n l) = n.
Proof. unfold len, take. intros H. rewrite length_firstn. lia. Qed.

Lemma len_drop {A} (n : Z) (l : list A) :
  0 <= n <= len l -> len (drop n l) = len l - n.
Proof. unfold len, drop. intros H. rewrite length_skipn. lia. Qed.

Lemma len_zeros (n : Z) : 0 <= n -> len (zeros n) = n.
Proof. unfold len, zeros. intros H. rewrite repeat_length. lia. Qed.

Lemma len_slice {A} (l : list A) (a b : Z) :
  0 <= a <= b -> b <= len l -> len (slice l a b) = b - a.
Proof.
  intros Hab Hb. unfold slice. rewrite len_take; [lia|].
  rewrite len_drop; lia.
Qed.

Lemma take_all {A} (l : list A) : take (len l) l = l.
Proof. unfold take, len. rewrite Nat2Z.id. apply firstn_all. Qed.

Lemma take_app_l {A} (n : Z) (l t : list A) :
  n <= len l -> take n (l ++ t) = take n l.
Proof.
  unfold take, len. intros H. rewrite firstn_app.
  replace (Z.to_nat n - List.length l)%nat with O by lia.
  cbn [firstn]. apply app_nil_r.
Qed.

Lemma drop_app_l {A} (n : Z) (l t : list A) :
  n <= len l -> drop n (l ++ t) = drop n l ++ t.
Proof.
  unfold drop, len. intros H. rewrite skipn_app.
  replace (Z.to_nat n - List.length l)%nat with O by lia.
  reflexivity.
Qed.

Lemma drop_app_r {A} (n : Z) (l t : list A) :
  0 <= n -> drop (len l + n) (l ++ t) = drop n t.
Proof.
  unfold drop, len. intros H. rewrite skipn_app.
  rewrite skipn_all2 by lia.
  replace (Z.to_nat (Z.of_nat (List.length l) + n) - List.length l)%nat
    with (Z.to_nat n) by lia.
  reflexivity.
Qed.

Lemma slice_app_l {A} (l t : list A) (a b : Z) :
  0 <= a -> b <= len l -> slice (l ++ t) a b = slice l a b.
Proof.
  intros Ha Hb. unfold slice.
  destruct (Z_le_gt_dec a (len l)) as [Hal|Hal].
  - rewrite drop_app_l by lia. apply take_app_l.
    rewrite len_drop; lia.
  - unfold take. replace (Z.to_nat (b - a)) with O by lia. reflexivity.
Qed.

Lemma slice_app_r {A} (l t : list A) (a b : Z) :
  0 <= a -> slice (l ++ t) (len l + a) (len l + b) = slice t a b.
Proof.
  intros Ha. unfold slice. rewrite drop_app_r by lia.
  now replace (len l + b - (len l + a)) with (b - a) by lia.
Qed.

Lemma slice_all {A} (l : list A) : slice l 0 (len l) = l.
Proof.
  unfold slice, drop. cbn [Z.to_nat skipn].
  rewrite Z.sub_0_r. apply take_all.
Qed.

Lemma slice_mid {A} (l m t : list A) :
  slice (l ++ m ++ t) (len l) (len l + len m) = m.
Proof.
  rewrite <- (Z.add_0_r (len l)) at 1.
  rewrite slice_app_r by lia.
  rewrite slice_app_l by lia. apply slice_all.
Qed.

Lemma item_Some_lt {A} (l : list A) (i : Z) :
  0 <= i < len l -> exists x, item l i = Some x.
Proof.
  unfold item, len. intros H.
  destruct (nth_error l (Z.to_nat i)) eqn:E; [eauto|].
  apply nth_error_None in E. lia.
Qed.

Lemma item_app_l {A} (l t : list A) (i : Z) :
  0 <= i < len l -> item (l ++ t) i = item l i.
Proof. unfold item, len. intros H. apply nth_error_app1. lia. Qed.

Lemma item_app_r {A} (l t : list A) (i : Z) :
  len l <= i -> item (l ++ t) i = item t (i - len l).
Proof.
  unfold item, len. intros H. rewrite nth_error_app2 by lia.
  f_equal. lia.
Qed.

Lemma item_take {A} (l : list A) (n i : Z) :
  0 <= i < n -> item (take n l) i = item l i.
Proof.
  unfold item, take. intros H. rewrite nth_error_firstn.
  destruct (Nat.ltb_spec (Z.to_nat i) (Z.to_nat n)); [reflexivity|lia].
Qed.

Lemma item_drop {A} (l : list A) (n i : Z) :
  0 <= n -> 0 <= i -> item (drop n l) i = item l (n + i).
Proof.
  unfold item, drop. intros Hn Hi. rewrite nth_error_skipn.
  f_equal. lia.
Qed.

Lemma item_slice {A} (l : list A) (a b i : Z) :
  0 <= a -> 0 <= i < b - a -> item (slice l a b) i = item l (a + i).
Proof.
  intros Ha Hi. unfold slice. rewrite item_take by lia.
  apply item_drop; lia.
Qed.

Lemma item_zeros (n i : Z) : 0 <= i < n -> item (zeros n) i = Some 0.
Proof.
  unfold item, zeros. intros H. apply nth_error_repeat. lia.
Qed.

(** Two lists with the same length and the same items are equal. *)
Lemma item_ext {A} (l1 l2 : list A) :
  len l1 = len l2 ->
  (forall i, 0 <= i < len l1 -> item l1 i = item l2 i) ->
  l1 = l2.
Proof.
  unfold len, item. intros Hlen Hitem.
  apply nth_error_ext. intros n.
  destruct (Nat.lt_ge_cases n (List.length l1)) as [Hn|Hn].
  - specialize (Hitem (Z.of_nat n)). rewrite Nat2Z.id in Hitem.
    apply Hitem. lia.
  - assert (H2 : (List.length l2 <= n)%nat) by lia.
    apply nth_error_None in Hn, H2. congruence.
Qed.

(** Slices are equal when the items they cover are. *)
Lemma slice_ext {A} (l1 l2 : list A) (a b : Z) :
  0 <= a <= b -> b <= len l1 -> b <= len l2 ->
  (forall i, a <= i < b -> item l1 i = item l2 i) ->
  slice l1 a b = slice l2 a b.
Proof.
  intros Hab H1 H2 Hitem. apply item_ext.
  - rewrite !len_slice; lia.
  - intros i Hi. rewrite len_slice in Hi by lia.
    rewrite !item_slice by lia. apply Hitem. lia.
Qed.

Lemma slice_slice {A} (l : list A) (a b c d : Z) :
  0 <= a -> b <= len l -> 0 <= c <= d -> a + d <= b ->
  slice (slice l a b) c d = slice l (a + c) (a + d).
Proof.
  intros Ha Hb Hcd Hd. apply item_ext.
  - rewrite !len_slice; try lia. rewrite len_slice; lia.
  - intros i Hi. rewrite len_slice in Hi; [|lia|rewrite len_slice; lia].
    rewrite !item_slice by lia. f_equal. lia.
Qed.

Lemma len_slice_assign (buf data : bytes) (a : Z) :
  0 <= a -> a + len data <= len buf ->
  len (slice_assign buf a (a + len data) data) = len buf.
Proof.
  intros Ha Hb. pose proof (len_nonneg data). unfold slice_assign.
  rewrite !len_app, len_take, len_drop; lia.
Qed.

Lemma item_slice_assign_out (buf data : bytes) (a i : Z) :
  0 <= a -> a + len data <= len buf ->
  0 <= i -> i < a \/ a + len data <= i ->
  item (slice_assign buf a (a + len data) data) i = item buf i.
Proof.
  intros Ha Hb Hi Hout. pose proof (len_nonneg data).
  unfold slice_assign.
  destruct Hout as [Hlt|Hge].
  - rewrite item_app_l by (rewrite len_take; lia).
    apply item_take; lia.
  - rewrite item_app_r by (rewrite len_take; lia).
    rewrite len_take by lia.
    rewrite item_app_r by lia.
    rewrite item_drop by lia. f_equal. lia.
Qed.

Lemma slice_slice_assign (buf data : bytes) (a : Z) :
  0 <= a -> a + len data <= len buf ->
  slice (slice_assign buf a (a + len data) data) a (a + len data) = data.
Proof.
  intros Ha Hb. pose proof (len_nonneg data). unfold slice_assign.
  pose proof (slice_mid (take a buf) data (drop (a + len data) buf)) as Hm.
  rewrite len_take in Hm by lia. exact Hm.
Qed.

End PyFacts.
Import PyFacts.

(** ** The splice of the magics into a chunk *)

Module Splice.

Import Gen1gb.

(** The guard of the splice, on a chunk of [n] bytes written at offset
    [written]: the entry starts inside the chunk and ends inside it. *)
Definition fits (written n : Z) (entry : Z * bytes) : Prop :=
  0 <= fst entry - written < n /\
  fst entry - written + len (snd entry) <= n.

(** Position [i] of the chunk written at [written] lies in the span of the
    entry. *)
Definition covers (written : Z) (entry : Z * bytes) (i : Z) : Prop :=
  fst entry - written <= i < fst entry - written + len (snd entry).

(** The spans of two entries, as absolute byte ranges, do not meet. *)
Definition apart (e1 e2 : Z * bytes) : Prop :=
  fst e1 + len (snd e1) <= fst e2 \/ fst e2 + len (snd e2) <= fst e1.

Lemma plant_one_fits written chunk entry :
  fits written (len chunk) entry ->
  plant_one written chunk entry =
  slice_assign chunk (fst entry - written)
    (fst entry - written + len (snd entry)) (snd entry).
Proof.
  intros [[H1 H2] H3]. destruct entry as [mo mdata]. cbn [fst snd] in *.
  unfold plant_one.
  destruct (Z.leb_spec 0 (mo - written)); [|lia].
  destruct (Z.ltb_spec (mo - written) (len chunk)); [|lia].
  destruct (Z.leb_spec (mo - written + len mdata) (len chunk)); [|lia].
  reflexivity.
Qed.

Lemma plant_one_skip written chunk entry :
  ~ fits written (len chunk) entry ->
  plant_one written chunk entry = chunk.
Proof.
  intros Hn. destruct entry as [mo mdata]. unfold fits in Hn.
  cbn [fst snd] in Hn. unfold plant_one.
  destruct (Z.leb_spec 0 (mo - written)); cbn [andb]; [|reflexivity].
  destruct (Z.ltb_spec (mo - written) (len chunk)); cbn [andb]; [|reflexivity].
  destruct (Z.leb_spec (mo - written + len mdata) (len chunk)); [|reflexivity].
  lia.
Qed.

Lemma fits_dec written n entry :
  fits written n entry \/ ~ fits written n entry.
Proof. unfold fits. lia. Qed.

Lemma plant_one_len written chunk entry :
  len (plant_one written chunk entry) = len chunk.
Proof.
  destruct (fits_dec written (len chunk) entry) as [Hf|Hf].
  - rewrite plant_one_fits by assumption.
    destruct Hf as [[H1 H2] H3]. apply len_slice_assign; lia.
  - now rewrite plant_one_skip.
Qed.

Lemma plant_magics_len magic_map : forall written chunk,
  len (plant_magics magic_map written chunk) = len chunk.
Proof.
  unfold plant_magics.
  induction magic_map as [|e mm IH]; intros written chunk; [reflexivity|].
  cbn [fold_left]. rewrite IH. apply plant_one_len.
Qed.

Lemma plant_one_item_out written chunk entry i :
  0 <= i -> ~ (fits written (len chunk) entry /\ covers written entry i) ->
  item (plant_one written chunk entry) i = item chunk i.
Proof.
  intros Hi Hout.
  destruct (fits_dec written (len chunk) entry) as [Hf|Hf].
  - rewrite plant_one_fits by assumption.
    destruct Hf as [[H1 H2] H3].
    apply item_slice_assign_out; try lia.
    unfold covers, fits in Hout. lia.
  - now rewrite plant_one_skip.
Qed.

Lemma plant_one_planted written chunk entry :
  fits written (len chunk) entry ->
  slice (plant_one written chunk entry) (fst entry - written)
    (fst entry - written + len (snd entry)) = snd entry.
Proof.
  intros Hf. rewrite plant_one_fits by assumption.
  destruct Hf as [[H1 H2] H3]. apply slice_slice_assign; lia.
Qed.

(** Frame: a position that no fitting entry covers keeps the generated
    byte. *)
Lemma plant_magics_frame magic_map written : forall chunk i,
  0 <= i ->
  (forall e, In e magic_map -> fits written (len chunk) e -> ~ covers written e i) ->
  item (plant_magics magic_map written chunk) i = item chunk i.
Proof.
  unfold plant_magics.
  induction magic_map as [|e mm IH]; intros chunk i Hi Hclear; [reflexivity|].
  cbn [fold_left]. rewrite IH.
  - apply plant_one_item_out; [assumption|].
    intros [Hf Hc]. apply (Hclear e); [now left|assumption..].
  - assumption.
  - intros e' Hin Hf. rewrite plant_one_len in Hf.
    apply Hclear; [now right|assumption].
Qed.

(** A slice that no fitting entry touches is left as generated. *)
Lemma plant_magics_frame_slice magic_map written chunk a z :
  0 <= a <= z -> z <= len chunk ->
  (forall e i, In e magic_map -> fits written (len chunk) e ->
               a <= i < z -> ~ covers written e i) ->
  slice (plant_magics magic_map written chunk) a z = slice chunk a z.
Proof.
  intros Haz Hz Hclear. apply slice_ext; try lia.
  - rewrite plant_magics_len. lia.
  - intros i Hi. apply plant_magics_frame; [lia|].
    intros e Hin Hf. now apply Hclear.
Qed.

Lemma apart_not_covers written e e' i :
  apart e e' -> covers written e i -> ~ covers written e' i.
Proof. unfold apart, covers. lia. Qed.

(** Once an entry's bytes are in place, the later turns of the loop leave
    them there, provided every other entry that fits is apart from it. *)
Lemma plant_magics_keeps magic_map written e : forall chunk,
  fits written (len chunk) e ->
  (forall e', In e' magic_map ->
     e' = e \/ ~ fits written (len chunk) e' \/ apart e e') ->
  slice chunk (fst e - written) (fst e - written + len (snd e)) = snd e ->
  slice (plant_magics magic_map written chunk) (fst e - written)
    (fst e - written + len (snd e)) = snd e.
Proof.
  unfold plant_magics.
  induction magic_map as [|e' mm IH]; intros chunk Hf Hothers Hin;
    [assumption|].
  cbn [fold_left]. pose proof (len_nonneg (snd e)) as Hlen.
  apply IH.
  - now rewrite plant_one_len.
  - intros e2 H2. rewrite plant_one_len. apply Hothers. now right.
  - destruct (Hothers e' (or_introl eq_refl)) as [-> | [Hnf | Hap]].
    + now apply plant_one_planted.
    + now rewrite plant_one_skip.
    + etransitivity; [|exact Hin]. destruct Hf as [[H1 H2] H3].
      apply slice_ext; try lia.
      * rewrite plant_one_len. lia.
      * intros i Hi. apply plant_one_item_out; [lia|].
        intros [_ Hc]. revert Hc. apply (apart_not_covers written e e' i Hap).
        unfold covers. lia.
Qed.

(** An entry of the dict that fits the chunk, and is apart from every other
    entry that fits, ends up in the chunk. *)
Lemma plant_magics_planted magic_map written e : forall chunk,
  In e magic_map ->
  fits written (len chunk) e ->
  (forall e', In e' magic_map ->
     e' = e \/ ~ fits written (len chunk) e' \/ apart e e') ->
  slice (plant_magics magic_map written chunk) (fst e - written)
    (fst e - written + len (snd e)) = snd e.
Proof.
  induction magic_map as [|e' mm IH]; intros chunk Hin Hf Hothers;
    [contradiction|].
  destruct (Hothers e' (or_introl eq_refl)) as [-> | Hrest].
  - change (plant_magics (e :: mm) written chunk)
      with (plant_magics mm written (plant_one written chunk e)).
    apply plant_magics_keeps.
    + now rewrite plant_one_len.
    + intros e2 H2. rewrite plant_one_len. apply Hothers. now right.
    + now apply plant_one_planted.
  - destruct Hin as [-> | Hin].
    { change (plant_magics (e :: mm) written chunk)
        with (plant_magics mm written (plant_one written chunk e)).
      apply plant_magics_keeps.
      + now rewrite plant_one_len.
      + intros e2 H2. rewrite plant_one_len. apply Hothers. now right.
      + now apply plant_one_planted. }
    change (plant_magics (e' :: mm) written chunk)
      with (plant_magics mm written (plant_one written chunk e')).
    apply IH; [assumption|now rewrite plant_one_len|].
    intros e2 H2. rewrite plant_one_len. apply Hothers. now right.
Qed.

End Splice.

(** ** The profile generators *)

Module Profiles.

Import Gen1gb.

Lemma bind_Done {A B} (c : outcome A) (k : A -> outcome B) (r : B) :
  bind c k = Done r -> exists a, c = Done a /\ k a = Done r.
Proof. destruct c; cbn [bind]; intros H; [eauto|discriminate..]. Qed.

Lemma len_b_cons (c : ascii) (s : string) : len (b (String c s)) = 1 + len (b s).
Proof. unfold b. cbn [list_ascii_of_string map]. apply len_cons. Qed.

Lemma log_line_len ts level mod_ msg : 0 < len (log_line ts level mod_ msg).
Proof.
  unfold log_line. rewrite len_app, len_b_cons.
  pose proof (len_nonneg (b "")).
  pose proof (len_nonneg
    (b (str_int ts) ++ b "] " ++ b (pad 5 level) ++ b " " ++
     b (pad 8 mod_) ++ b " | " ++ b msg ++ [10])).
  lia.
Qed.

Lemma le_bytes_len n : forall v, len (le_bytes n v) = Z.of_nat n.
Proof.
  induction n as [|n IH]; intros v; [reflexivity|].
  cbn [le_bytes]. rewrite len_cons, IH. lia.
Qed.

Lemma le_decode_le_bytes n : forall v,
  0 <= v < 256 ^ Z.of_nat n -> le_decode (le_bytes n v) = v.
Proof.
  induction n as [|n IH]; intros v Hv.
  - cbn in *. lia.
  - cbn [le_bytes le_decode].
    rewrite Nat2Z.inj_succ, Z.pow_succ_r in Hv by lia.
    rewrite IH.
    + pose proof (Z.div_mod v 256). lia.
    + split; [apply Z.div_pos; lia|].
      apply Z.div_lt_upper_bound; lia.
Qed.

(** [struct.pack("<IqI", rec_id, ts, val)] when the three values fit. *)
Lemma struct_pack_IqI rec_id ts val :
  0 <= rec_id < 2 ^ 32 -> - 2 ^ 63 <= ts < 2 ^ 63 -> 0 <= val < 2 ^ 32 ->
  struct_pack [(fI, rec_id); (fq, ts); (fI, val)] =
  Done (le_bytes 4 rec_id ++ le_bytes 8 ts ++ le_bytes 4 val ++ []).
Proof.
  intros Hr Ht Hv. cbn [struct_pack field_fits field_size].
  change (2 ^ (8 * Z.of_nat 4)) with (2 ^ 32).
  destruct (Z.leb_spec 0 rec_id); [|lia].
  destruct (Z.ltb_spec rec_id (2 ^ 32)); [|lia].
  destruct (Z.leb_spec (- 2 ^ 63) ts); [|lia].
  destruct (Z.ltb_spec ts (2 ^ 63)); [|lia].
  destruct (Z.leb_spec 0 val); [|lia].
  destruct (Z.ltb_spec val (2 ^ 32)); [|lia].
  reflexivity.
Qed.

Lemma struct_pack_IqI_inv rec_id ts val packed :
  struct_pack [(fI, rec_id); (fq, ts); (fI, val)] = Done packed ->
  0 <= rec_id < 2 ^ 32 /\ - 2 ^ 63 <= ts < 2 ^ 63 /\ 0 <= val < 2 ^ 32 /\
  packed = le_bytes 4 rec_id ++ le_bytes 8 ts ++ le_bytes 4 val ++ [].
Proof.
  cbn [struct_pack field_fits field_size].
  change (2 ^ (8 * Z.of_nat 4)) with (2 ^ 32).
  destruct (Z.leb_spec 0 rec_id); cbn [andb]; [|discriminate].
  destruct (Z.ltb_spec rec_id (2 ^ 32)); [|discriminate].
  destruct (Z.leb_spec (- 2 ^ 63) ts); cbn [andb]; [|discriminate].
  destruct (Z.ltb_spec ts (2 ^ 63)); [|discriminate].
  destruct (Z.leb_spec 0 val); cbn [andb]; [|discriminate].
  destruct (Z.ltb_spec val (2 ^ 32)); [|discriminate].
  cbn [bind]. intros [= <-]. repeat split; lia.
Qed.

Lemma bytes_of_ints_inv ints data :
  bytes_of_ints ints = Done data -> data = ints.
Proof.
  unfold bytes_of_ints. destruct (forallb _ ints); [|discriminate].
  now intros [= <-].
Qed.

Lemma bytes_of_ints_ok ints :
  Forall (fun x => 0 <= x < 256) ints -> bytes_of_ints ints = Done ints.
Proof.
  intros H. unfold bytes_of_ints.
  replace (forallb _ ints) with true; [reflexivity|].
  symmetry. apply forallb_forall. intros x Hx.
  rewrite Forall_forall in H. specialize (H x Hx).
  apply andb_true_intro. split; [apply Z.leb_le|apply Z.ltb_lt]; lia.
Qed.

Section WithRandom.

Context {R : Random}.

Lemma draw_bytes_spec n : forall rng,
  List.length (fst (draw_bytes n rng)) = n /\
  Forall (fun x => 0 <= x < 256) (fst (draw_bytes n rng)).
Proof.
  induction n as [|n IH]; intros rng; cbn [draw_bytes].
  - split; [reflexivity|constructor].
  - pose proof (getrandbits_range rng 8 ltac:(lia)) as Hx.
    destruct (getrandbits rng 8) as [x rng1]. cbn [fst] in Hx.
    specialize (IH rng1). destruct (draw_bytes n rng1) as [xs rng2].
    cbn [fst] in *. destruct IH as [IH1 IH2]. split.
    + cbn [List.length]. now rewrite IH1.
    + constructor; [exact Hx|exact IH2].
Qed.

(** *** [gen_ascii_log] *)

(** When the loop is left, the buffer has reached [size]. *)
Lemma ascii_log_loop_reaches fuel : forall rng size buf ts buf' rng',
  ascii_log_loop fuel rng size buf ts = Done (buf', rng') ->
  size <= len buf'.
Proof.
  induction fuel as [|fuel IH]; intros rng size buf ts buf' rng' H;
    [discriminate|].
  cbn [ascii_log_loop] in H.
  destruct (Z.ltb_spec (len buf) size) as [Hlt|Hge].
  - destruct (randint rng 1 5000) as [d rng1].
    destruct (choice rng1 levels) as [level rng2].
    destruct (choice rng2 modules) as [mod_ rng3].
    destruct (choice rng3 messages) as [msg rng4].
    now apply IH in H.
  - injection H as <- <-. assumption.
Qed.

Lemma gen_ascii_log_len fuel rng size data rng' :
  gen_ascii_log fuel rng size = Done (data, rng') ->
  0 <= size -> len data = size.
Proof.
  unfold gen_ascii_log. intros H Hsize.
  apply bind_Done in H. destruct H as [[buf rng1] [Hloop H]].
  injection H as <- <-. apply ascii_log_loop_reaches in Hloop.
  apply len_take. lia.
Qed.

(** The loop ends within [size - len(buf) + 1] turns: every line adds at
    least one byte. *)
Lemma ascii_log_loop_total fuel : forall rng size buf ts,
  Z.max 0 (size - len buf) < Z.of_nat fuel ->
  exists r, ascii_log_loop fuel rng size buf ts = Done r.
Proof.
  induction fuel as [|fuel IH]; intros rng size buf ts Hfuel; [lia|].
  cbn [ascii_log_loop].
  destruct (Z.ltb_spec (len buf) size) as [Hlt|Hge]; [|eauto].
  destruct (randint rng 1 5000) as [d rng1].
  destruct (choice rng1 levels) as [level rng2].
  destruct (choice rng2 modules) as [mod_ rng3].
  destruct (choice rng3 messages) as [msg rng4].
  apply IH. rewrite len_app.
  pose proof (log_line_len (ts + d) level mod_ msg). lia.
Qed.

(** A larger budget gives the same result. *)
Lemma ascii_log_loop_mono fuel : forall fuel' rng size buf ts r,
  ascii_log_loop fuel rng size buf ts = Done r -> (fuel <= fuel')%nat ->
  ascii_log_loop fuel' rng size buf ts = Done r.
Proof.
  induction fuel as [|fuel IH]; intros fuel' rng size buf ts r H Hle;
    [discriminate|].
  destruct fuel' as [|fuel']; [lia|].
  cbn [ascii_log_loop] in *.
  destruct (len buf <? size); [|assumption].
  destruct (randint rng 1 5000) as [d rng1].
  destruct (choice rng1 levels) as [level rng2].
  destruct (choice rng2 modules) as [mod_ rng3].
  destruct (choice rng3 messages) as [msg rng4].
  apply IH; [assumption|lia].
Qed.

Lemma gen_ascii_log_total fuel rng size :
  Z.max 0 size < Z.of_nat fuel ->
  exists r, gen_ascii_log fuel rng size = Done r.
Proof.
  intros Hfuel. unfold gen_ascii_log.
  destruct (ascii_log_loop_total fuel rng size [] 1700000000) as [[buf rng1] ->].
  - change (len (@nil Z)) with 0. lia.
  - cbn [bind]. eauto.
Qed.

Lemma gen_ascii_log_mono fuel fuel' rng size r :
  gen_ascii_log fuel rng size = Done r -> (fuel <= fuel')%nat ->
  gen_ascii_log fuel' rng size = Done r.
Proof.
  unfold gen_ascii_log. intros H Hle.
  apply bind_Done in H. destruct H as [[buf rng1] [Hloop H]].
  now rewrite (ascii_log_loop_mono _ fuel' _ _ _ _ _ Hloop Hle).
Qed.

(** *** [gen_structured_records] *)

(** Record [r] of a buffer: the 32 bytes at [32 * r] are the packed id
    [r], the timestamp with its jitter, a value, and 16 payload bytes. *)
Definition record_at (data : bytes) (r : Z) : Prop :=
  exists jitter val payload,
    0 <= jitter <= 50 /\ 0 <= val <= 1000000 /\ len payload = 16 /\
    0 <= r < 2 ^ 32 /\
    slice data (32 * r) (32 * r + 32) =
      le_bytes 4 r ++ le_bytes 8 (1700000000 + r * 100 + jitter)
      ++ le_bytes 4 val ++ payload.

Lemma record_at_app data t r :
  0 <= r -> 32 * r + 32 <= len data ->
  record_at data r -> record_at (data ++ t) r.
Proof.
  intros Hr Hlen (jitter & val & payload & H1 & H2 & H3 & H4 & H5).
  exists jitter, val, payload. repeat split; try lia.
  rewrite slice_app_l by lia. exact H5.
Qed.

Lemma record_at_take data size r :
  0 <= r -> 32 * r + 32 <= size -> size <= len data ->
  record_at data r -> record_at (take size data) r.
Proof.
  intros Hr Hsize Hlen (jitter & val & payload & H1 & H2 & H3 & H4 & H5).
  exists jitter, val, payload. repeat split; try lia.
  rewrite <- H5. apply slice_ext; try lia.
  - rewrite len_take; lia.
  - intros i Hi. apply item_take. lia.
Qed.

(** The invariant of the loop: the buffer holds [rec_id] whole records,
    numbered from 0. *)
Lemma records_loop_inv fuel : forall rng size buf rec_id buf' rng',
  records_loop fuel rng size buf rec_id = Done (buf', rng') ->
  0 <= rec_id -> len buf = 32 * rec_id ->
  (forall r, 0 <= r < rec_id -> record_at buf r) ->
  size <= len buf' /\
  exists n, rec_id <= n /\ len buf' = 32 * n /\
            forall r, 0 <= r < n -> record_at buf' r.
Proof.
  induction fuel as [|fuel IH];
    intros rng size buf rec_id buf' rng' H Hid Hlen Hrec; [discriminate|].
  cbn [records_loop] in H.
  destruct (Z.ltb_spec (len buf) size) as [Hlt|Hge].
  - pose proof (randint_range rng 0 50 ltac:(lia)) as Hj.
    destruct (randint rng 0 50) as [jitter rng1]. cbn [fst] in Hj.
    pose proof (randint_range rng1 0 1000000 ltac:(lia)) as Hv.
    destruct (randint rng1 0 1000000) as [val rng2]. cbn [fst] in Hv.
    pose proof (draw_bytes_spec 16 rng2) as [Hplen _].
    destruct (draw_bytes 16 rng2) as [ints rng3]. cbn [fst] in Hplen.
    apply bind_Done in H. destruct H as [payload [Hpay H]].
    apply bytes_of_ints_inv in Hpay. subst payload.
    apply bind_Done in H. destruct H as [packed [Hpack H]].
    apply struct_pack_IqI_inv in Hpack.
    destruct Hpack as (Hr32 & Hts & Hv32 & ->).
    assert (Hnew : len ((le_bytes 4 rec_id
              ++ le_bytes 8 (1700000000 + rec_id * 100 + jitter)
              ++ le_bytes 4 val ++ []) ++ ints) = 32).
    { rewrite !len_app, !le_bytes_len. unfold len at 1 2.
      rewrite Hplen. cbn. lia. }
    apply IH in H; [| lia | rewrite len_app, Hnew; lia |].
    + destruct H as [Hsz (n & Hn & Hlen' & Hall)]. split; [assumption|].
      exists n. repeat split; [lia|assumption..].
    + intros r Hr. destruct (Z.eq_dec r rec_id) as [->|Hne].
      * exists jitter, val, ints. repeat split; try lia.
        { unfold len. rewrite Hplen. reflexivity. }
        rewrite <- Hlen. rewrite <- Hnew at 1.
        rewrite <- (app_nil_r ((_ ++ ints))) at 1.
        rewrite slice_mid. rewrite app_nil_r.
        now rewrite <- !app_assoc.
      * apply record_at_app; [lia|lia|]. apply Hrec. lia.
  - injection H as <- <-. split; [assumption|].
    exists rec_id. repeat split; [lia|assumption..].
Qed.

(** Every complete record of a generated buffer is record [r] of one call:
    its id is its index in that call's output. *)
Lemma gen_structured_records_record fuel rng size data rng' r :
  gen_structured_records fuel rng size = Done (data, rng') ->
  0 <= r -> 32 * r + 32 <= size ->
  record_at data r.
Proof.
  unfold gen_structured_records. intros H Hr Hsize.
  apply bind_Done in H. destruct H as [[buf rng1] [Hloop H]].
  injection H as <- <-.
  apply records_loop_inv in Hloop; [|lia|reflexivity|intros; lia].
  destruct Hloop as [Hsz (n & Hn & Hlen & Hall)].
  apply record_at_take; [lia..|]. apply Hall. lia.
Qed.

Lemma gen_structured_records_len fuel rng size data rng' :
  gen_structured_records fuel rng size = Done (data, rng') ->
  0 <= size -> len data = size.
Proof.
  unfold gen_structured_records. intros H Hsize.
  apply bind_Done in H. destruct H as [[buf rng1] [Hloop H]].
  injection H as <- <-.
  apply records_loop_inv in Hloop; [|lia|reflexivity|intros; lia].
  apply len_take. lia.
Qed.

(** The loop ends, without an exception, as long as the record ids stay
    within the 4-byte field: chunks below 2^37 bytes. *)
Lemma records_loop_total fuel : forall rng size buf rec_id,
  0 <= rec_id -> len buf = 32 * rec_id -> size <= 2 ^ 37 ->
  Z.max 0 (size - len buf) < Z.of_nat fuel ->
  exists r, records_loop fuel rng size buf rec_id = Done r.
Proof.
  induction fuel as [|fuel IH];
    intros rng size buf rec_id Hid Hlen Hsize Hfuel; [lia|].
  cbn [records_loop].
  destruct (Z.ltb_spec (len buf) size) as [Hlt|Hge]; [|eauto].
  pose proof (randint_range rng 0 50 ltac:(lia)) as Hj.
  destruct (randint rng 0 50) as [jitter rng1]. cbn [fst] in Hj.
  pose proof (randint_range rng1 0 1000000 ltac:(lia)) as Hv.
  destruct (randint rng1 0 1000000) as [val rng2]. cbn [fst] in Hv.
  pose proof (draw_bytes_spec 16 rng2) as [Hplen Hprange].
  destruct (draw_bytes 16 rng2) as [ints rng3]. cbn [fst] in Hplen, Hprange.
  rewrite (bytes_of_ints_ok _ Hprange). cbn [bind].
  rewrite struct_pack_IqI by lia. cbn [bind].
  apply IH; [lia| |assumption|].
  - rewrite !len_app, !le_bytes_len. unfold len at 2 3.
    rewrite Hplen. cbn [List.length]. lia.
  - rewrite !len_app, !le_bytes_len. unfold len at 2 3.
    rewrite Hplen. cbn [List.length]. lia.
Qed.

Lemma records_loop_mono fuel : forall fuel' rng size buf rec_id r,
  records_loop fuel rng size buf rec_id = Done r -> (fuel <= fuel')%nat ->
  records_loop fuel' rng size buf rec_id = Done r.
Proof.
  induction fuel as [|fuel IH]; intros fuel' rng size buf rec_id r H Hle;
    [discriminate|].
  destruct fuel' as [|fuel']; [lia|].
  cbn [records_loop] in *.
  destruct (len buf <? size); [|assumption].
  destruct (randint rng 0 50) as [jitter rng1].
  destruct (randint rng1 0 1000000) as [val rng2].
  destruct (draw_bytes 16 rng2) as [ints rng3].
  destruct (bytes_of_ints ints) as [payload| |]; cbn [bind] in *;
    [|discriminate..].
  destruct (struct_pack _) as [packed| |]; cbn [bind] in *; [|discriminate..].
  apply IH; [assumption|lia].
Qed.

Lemma gen_structured_records_total fuel rng size :
  size <= 2 ^ 37 -> Z.max 0 size < Z.of_nat fuel ->
  exists r, gen_structured_records fuel rng size = Done r.
Proof.
  intros Hsize Hfuel. unfold gen_structured_records.
  destruct (records_loop_total fuel rng size [] 0) as [[buf rng1] ->];
    try reflexivity; try lia.
  - change (len (@nil Z)) with 0. lia.
  - cbn [bind]. eauto.
Qed.

Lemma gen_structured_records_mono fuel fuel' rng size r :
  gen_structured_records fuel rng size = Done r -> (fuel <= fuel')%nat ->
  gen_structured_records fuel' rng size = Done r.
Proof.
  unfold gen_structured_records. intros H Hle.
  apply bind_Done in H. destruct H as [[buf rng1] [Hloop H]].
  now rewrite (records_loop_mono _ fuel' _ _ _ _ _ Hloop Hle).
Qed.

(** *** [gen_random_data], [gen_zeros] and the mixed section *)

Lemma gen_random_data_len rng size data rng' :
  gen_random_data rng size = Done (data, rng') ->
  0 <= size -> len data = size.
Proof.
  unfold gen_random_data. intros [= H] Hsize.
  pose proof (randbytes_len rng size Hsize) as Hl.
  now rewrite H in Hl.
Qed.

Lemma gen_zeros_len size : 0 <= size -> len (gen_zeros size) = size.
Proof. apply len_zeros. Qed.

Lemma gen_mixed_len block_idx rng size data rng' :
  gen_mixed block_idx rng size = Done (data, rng') ->
  0 <= size -> len data = size.
Proof.
  unfold gen_mixed. destruct (block_idx mod 2 =? 0).
  - intros [= <- <-]. apply gen_zeros_len.
  - apply gen_random_data_len.
Qed.

Lemma gen_mixed_total block_idx rng size :
  exists r, gen_mixed block_idx rng size = Done r.
Proof.
  unfold gen_mixed, gen_random_data.
  destruct (block_idx mod 2 =? 0); eauto.
Qed.

End WithRandom.

End Profiles.

(** ** The chunk loops *)

Module Writer.

Import Gen1gb Splice Profiles.

Section Loop.

Context {R : Random}.

Variable gen : Z -> rng_state -> Z -> outcome (bytes * rng_state).
Variable magic_map : list (Z * bytes).
Variables bound step : Z.

Hypothesis step_pos : 0 < step.

(** The generator returns what it is asked for. *)
Hypothesis gen_len : forall idx rng size data rng',
  gen idx rng size = Done (data, rng') -> 0 <= size -> len data = size.

(** The size of the chunk that starts [off] bytes into the section. *)
Definition size_at (off : Z) : Z := Z.min step (bound - off).

(** What a finished loop has done.  [written] has advanced by what was
    left of the section, the file has grown by as much, and for every [k]
    the [k]-th chunk of the loop, counted from where the loop started, is
    the generator's output on the state the previous chunk left, with the
    magics planted. *)
Lemma chunk_loop_spec fuel : forall st section_written block_idx st',
  chunk_loop gen magic_map bound step fuel st section_written block_idx
    = Done st' ->
  len (sink st) = written st ->
  len (sink st') = written st' /\
  written st' = written st + Z.max 0 (bound - section_written) /\
  (exists tail, sink st' = sink st ++ tail) /\
  exists rngs : Z -> rng_state,
    rngs 0 = rng st /\
    forall k, 0 <= k -> section_written + k * step < bound ->
      exists data,
        gen (block_idx + k) (rngs k) (size_at (section_written + k * step))
          = Done (data, rngs (k + 1)) /\
        slice (sink st') (written st + k * step)
          (written st + k * step + size_at (section_written + k * step))
          = plant_magics magic_map (written st + k * step) data.
Proof.
  induction fuel as [|fuel IH]; intros st sw idx st' H Hlen; [discriminate|].
  cbn [chunk_loop] in H.
  destruct (Z.ltb_spec sw bound) as [Hlt|Hge].
  - apply bind_Done in H. destruct H as [[data rng1] [Hgen H]].
    set (cs := Z.min step (bound - sw)) in *.
    assert (Hcs : 0 < cs) by (unfold cs; lia).
    pose proof (gen_len _ _ _ _ _ Hgen ltac:(lia)) as Hdata.
    set (chunk := plant_magics magic_map (written st) data) in *.
    assert (Hchunk : len chunk = cs)
      by (unfold chunk; now rewrite plant_magics_len).
    apply IH in H; [|cbn [sink written]; rewrite len_app; lia].
    cbn [sink written rng] in H.
    destruct H as (Hl' & Hw' & [tail Htail] & rngs & Hr0 & Hchunks).
    split; [assumption|]. split; [lia|].
    split; [exists (chunk ++ tail); now rewrite Htail, app_assoc|].
    exists (fun k => if k =? 0 then rng st else rngs (k - 1)).
    split; [reflexivity|].
    intros k Hk Hin. destruct (Z.eqb_spec k 0) as [->|Hk0].
    + exists data. cbn beta.
      change (0 + 1 =? 0) with false. change (0 + 1 - 1) with 0. cbv iota.
      rewrite Hr0. rewrite !Z.mul_0_l, !Z.add_0_r.
      split; [exact Hgen|].
      change (size_at sw) with cs. rewrite Htail, <- app_assoc.
      pose proof (slice_mid (sink st) chunk tail) as Hmid.
      rewrite Hlen, Hchunk in Hmid. exact Hmid.
    + assert (Hk1 : 0 <= k - 1) by lia.
      assert (Hmul : k * step = (k - 1) * step + step) by ring.
      pose proof (Z.mul_nonneg_nonneg (k - 1) step Hk1 ltac:(lia)) as Hnn.
      assert (Hcs' : cs = step) by (unfold cs; lia).
      destruct (Z.eqb_spec (k + 1) 0) as [?|_]; [lia|].
      destruct (Hchunks (k - 1) Hk1 ltac:(lia)) as [data' [Hg' Hs']].
      replace (idx + 1 + (k - 1)) with (idx + k) in Hg' by lia.
      replace (sw + cs + (k - 1) * step) with (sw + k * step) in * by lia.
      replace (k - 1 + 1) with (k + 1 - 1) in Hg' by lia.
      replace (written st + cs + (k - 1) * step)
        with (written st + k * step) in Hs' by lia.
      exists data'. split; assumption.
  - injection H as <-. split; [assumption|]. split; [lia|].
    split; [exists []; now rewrite app_nil_r|].
    exists (fun _ => rng st). split; [reflexivity|].
    intros k Hk Hin.
    pose proof (Z.mul_nonneg_nonneg k step Hk ltac:(lia)). lia.
Qed.

(** The loop ends when the generator does: each turn advances by at least
    one byte. *)
Lemma chunk_loop_total fuel : forall st section_written block_idx,
  (forall idx rng size, 0 < size <= step -> size <= bound ->
     exists r, gen idx rng size = Done r) ->
  0 <= section_written ->
  Z.max 0 (bound - section_written) < Z.of_nat fuel ->
  exists st',
    chunk_loop gen magic_map bound step fuel st section_written block_idx
      = Done st'.
Proof.
  induction fuel as [|fuel IH]; intros st sw idx Hgen Hsw Hfuel; [lia|].
  cbn [chunk_loop].
  destruct (Z.ltb_spec sw bound) as [Hlt|Hge]; [|eauto].
  destruct (Hgen idx (rng st) (Z.min step (bound - sw))
              ltac:(lia) ltac:(lia)) as [[data rng1] ->].
  cbn [bind]. apply IH; [assumption|lia|lia].
Qed.

End Loop.

Section Mono.

Context {R : Random}.

(** A larger budget, for the loop and for the generator it calls, gives the
    same final state. *)
Lemma chunk_loop_mono gen gen' magic_map bound step fuel :
  (forall idx rng size r, gen idx rng size = Done r -> gen' idx rng size = Done r) ->
  forall fuel' st section_written block_idx st',
  chunk_loop gen magic_map bound step fuel st section_written block_idx
    = Done st' ->
  (fuel <= fuel')%nat ->
  chunk_loop gen' magic_map bound step fuel' st section_written block_idx
    = Done st'.
Proof.
  intros Hgen.
  induction fuel as [|fuel IH]; intros fuel' st sw idx st' H Hle;
    [discriminate|].
  destruct fuel' as [|fuel']; [lia|].
  cbn [chunk_loop] in *.
  destruct (sw <? bound); [|assumption].
  apply bind_Done in H. destruct H as [[data rng1] [Hg H]].
  rewrite (Hgen _ _ _ _ Hg). cbn [bind].
  apply IH; [assumption|lia].
Qed.

End Mono.

(** *** The whole run *)

(** The steps of the loops are positive and the section size is not
    negative: what the loops need to come to an end. *)
Definition steps_ok (p : plan) : Prop :=
  0 < CHUNK p /\ 0 < block_size p /\ 0 <= SECTION_SIZE p.

(** The three fixed sections moreover leave room for the mixed one, so
    that the four of them tile the file. *)
Definition plan_ok (p : plan) : Prop :=
  steps_ok p /\ 3 * SECTION_SIZE p <= TARGET_SIZE p.

(** Every name of [MAGIC_OFFSETS] is a key of [MAGICS]. *)
Definition names_known (p : plan) : Prop :=
  Forall (fun e => exists v, dict_get MAGICS (snd e) = Done v) (MAGIC_OFFSETS p).

Section Run.

Context {R : Random}.

(** The chunks of one section as they stand in the file [out]: chunk [k]
    starts at [base + k * step], is what [gen] returned on the generator
    state [rngs k], with the magics planted, and leaves the state
    [rngs (k + 1)] to the next chunk. *)
Definition section_chunks
    (gen : Z -> rng_state -> Z -> outcome (bytes * rng_state))
    (magic_map : list (Z * bytes)) (out : bytes)
    (base bound step : Z) (rng0 : rng_state) : Prop :=
  exists rngs : Z -> rng_state,
    rngs 0 = rng0 /\
    forall k, 0 <= k -> k * step < bound ->
      exists data,
        gen k (rngs k) (Z.min step (bound - k * step))
          = Done (data, rngs (k + 1)) /\
        slice out (base + k * step)
          (base + k * step + Z.min step (bound - k * step))
          = plant_magics magic_map (base + k * step) data.

Lemma section_chunks_app gen magic_map out t base bound step rng0 :
  0 <= base -> 0 < step -> base + Z.max 0 bound <= len out ->
  section_chunks gen magic_map out base bound step rng0 ->
  section_chunks gen magic_map (out ++ t) base bound step rng0.
Proof.
  intros Hbase Hstep Hlen (rngs & H0 & Hk).
  exists rngs. split; [assumption|].
  intros k Hk0 Hkb. destruct (Hk k Hk0 Hkb) as [data [Hg Hs]].
  exists data. split; [assumption|].
  pose proof (Z.mul_nonneg_nonneg k step Hk0 ltac:(lia)).
  rewrite slice_app_l by lia. assumption.
Qed.

Lemma chunk_loop_section gen magic_map bound step fuel st st' :
  0 < step ->
  (forall idx rng size data rng',
     gen idx rng size = Done (data, rng') -> 0 <= size -> len data = size) ->
  chunk_loop gen magic_map bound step fuel st 0 0 = Done st' ->
  len (sink st) = written st ->
  len (sink st') = written st' /\
  written st' = written st + Z.max 0 bound /\
  (exists tail, sink st' = sink st ++ tail) /\
  section_chunks gen magic_map (sink st') (written st) bound step (rng st).
Proof.
  intros Hstep Hgen Hloop Hlen.
  destruct (chunk_loop_spec gen magic_map bound step Hstep Hgen
              fuel st 0 0 st' Hloop Hlen)
    as (Hl & Hw & Htail & rngs & Hr0 & Hchunks).
  rewrite Z.sub_0_r in Hw. repeat split; try assumption.
  exists rngs. split; [assumption|].
  intros k Hk Hkb. destruct (Hchunks k Hk ltac:(lia)) as [data [Hg Hs]].
  exists data. unfold size_at in *. rewrite !Z.add_0_l in *.
  split; assumption.
Qed.

(** The four loops of a run, with the states between them. *)
Definition sections (p : plan) (fuel : nat) (magic_map : list (Z * bytes))
    (st1 st2 st3 st4 : wstate) : Prop :=
  chunk_loop (fun _ => gen_ascii_log fuel) magic_map
    (SECTION_SIZE p) (CHUNK p) fuel
    {| rng := Random_seed 42; written := 0; sink := [] |} 0 0 = Done st1 /\
  chunk_loop (fun _ => gen_structured_records fuel) magic_map
    (SECTION_SIZE p) (CHUNK p) fuel st1 0 0 = Done st2 /\
  chunk_loop (fun _ => gen_random_data) magic_map
    (SECTION_SIZE p) (CHUNK p) fuel st2 0 0 = Done st3 /\
  chunk_loop gen_mixed magic_map
    (TARGET_SIZE p - written st3) (block_size p) fuel st3 0 0 = Done st4.

Lemma generate_sections p fuel st :
  generate p fuel = Done st <->
  exists magic_map st1 st2 st3,
    build_magic_map (MAGIC_OFFSETS p) [] = Done magic_map /\
    sections p fuel magic_map st1 st2 st3 st.
Proof.
  unfold generate, sections. split.
  - intros H.
    apply bind_Done in H. destruct H as [mm [Hmm H]].
    apply bind_Done in H. destruct H as [st1 [H1 H]].
    apply bind_Done in H. destruct H as [st2 [H2 H]].
    apply bind_Done in H. destruct H as [st3 [H3 H]].
    exists mm, st1, st2, st3. auto.
  - intros (mm & st1 & st2 & st3 & Hmm & H1 & H2 & H3 & H4).
    rewrite Hmm. cbn [bind]. rewrite H1. cbn [bind].
    rewrite H2. cbn [bind]. rewrite H3. cbn [bind]. exact H4.
Qed.

(** Where the four loops leave [written] and the file, and what each has
    put in it. *)
Lemma sections_layout p fuel magic_map st1 st2 st3 st :
  steps_ok p ->
  sections p fuel magic_map st1 st2 st3 st ->
  (written st1 = SECTION_SIZE p /\ written st2 = 2 * SECTION_SIZE p /\
   written st3 = 3 * SECTION_SIZE p /\
   written st = Z.max (3 * SECTION_SIZE p) (TARGET_SIZE p)) /\
  len (sink st) = written st /\
  section_chunks (fun _ => gen_ascii_log fuel) magic_map (sink st)
    0 (SECTION_SIZE p) (CHUNK p) (Random_seed 42) /\
  section_chunks (fun _ => gen_structured_records fuel) magic_map (sink st)
    (SECTION_SIZE p) (SECTION_SIZE p) (CHUNK p) (rng st1) /\
  section_chunks (fun _ => gen_random_data) magic_map (sink st)
    (2 * SECTION_SIZE p) (SECTION_SIZE p) (CHUNK p) (rng st2) /\
  section_chunks gen_mixed magic_map (sink st)
    (3 * SECTION_SIZE p) (TARGET_SIZE p - 3 * SECTION_SIZE p) (block_size p)
    (rng st3).
Proof.
  intros (HC & HB & HS) (H1 & H2 & H3 & H4).
  apply chunk_loop_section in H1;
    [|assumption|intros ? ? ? ? ?; apply gen_ascii_log_len|reflexivity].
  cbn [written sink rng] in H1.
  destruct H1 as (Hl1 & Hw1 & [t1 Ht1] & Hc1).
  apply chunk_loop_section in H2;
    [|assumption|intros ? ? ? ? ?; apply gen_structured_records_len|assumption].
  destruct H2 as (Hl2 & Hw2 & [t2 Ht2] & Hc2).
  apply chunk_loop_section in H3;
    [|assumption|intros ? ? ? ? ?; apply gen_random_data_len|assumption].
  destruct H3 as (Hl3 & Hw3 & [t3 Ht3] & Hc3).
  apply chunk_loop_section in H4;
    [|assumption|intros ? ? ? ? ?; apply gen_mixed_len|assumption].
  destruct H4 as (Hl4 & Hw4 & [t4 Ht4] & Hc4).
  assert (E1 : written st1 = SECTION_SIZE p) by lia.
  assert (E2 : written st2 = 2 * SECTION_SIZE p) by lia.
  assert (E3 : written st3 = 3 * SECTION_SIZE p) by lia.
  assert (E4 : written st = Z.max (3 * SECTION_SIZE p) (TARGET_SIZE p)) by lia.
  split; [auto|]. split; [lia|].
  rewrite E1 in Hc2. rewrite E2 in Hc3. rewrite E3 in Hc4.
  repeat split.
  - rewrite Ht4, Ht3, Ht2.
    repeat (apply section_chunks_app; try lia;
            try (rewrite ?len_app; pose proof (len_nonneg t2);
                 pose proof (len_nonneg t3); lia)).
    assumption.
  - rewrite Ht4, Ht3.
    repeat (apply section_chunks_app; try lia;
            try (rewrite ?len_app; pose proof (len_nonneg t3); lia)).
    assumption.
  - rewrite Ht4. apply section_chunks_app; try lia. assumption.
  - assumption.
Qed.

Lemma build_magic_map_total offsets : forall magic_map,
  Forall (fun e => exists v, dict_get MAGICS (snd e) = Done v) offsets ->
  exists mm, build_magic_map offsets magic_map = Done mm.
Proof.
  induction offsets as [|[offset name] rest IH]; intros mm Hk;
    cbn [build_magic_map]; [eauto|].
  inversion Hk as [|? ? [v Hv] Hrest]; subst. cbn [snd] in Hv.
  rewrite Hv. cbn [bind]. now apply IH.
Qed.

Lemma build_magic_map_unknown offsets : forall magic_map,
  ~ Forall (fun e => exists v, dict_get MAGICS (snd e) = Done v) offsets ->
  build_magic_map offsets magic_map = Raised KeyError.
Proof.
  induction offsets as [|[offset name] rest IH]; intros mm Hk;
    cbn [build_magic_map].
  - exfalso. apply Hk. constructor.
  - destruct (dict_get MAGICS name) as [v|e|] eqn:Hv; cbn [bind].
    + apply IH. intros Hrest. apply Hk. constructor; [|assumption].
      cbn [snd]. eauto.
    + revert Hv. clear. unfold MAGICS. cbn [dict_get].
      repeat (destruct (String.eqb _ name); [discriminate|]).
      now intros [= <-].
    + revert Hv. clear. unfold MAGICS. cbn [dict_get].
      repeat (destruct (String.eqb _ name); [discriminate|]).
      discriminate.
Qed.

(** With a budget above the larger of the file size and the three fixed
    sections, a run on known names and with chunks below 2^37 bytes ends without an exception. *)
Lemma generate_total p fuel :
  steps_ok p -> names_known p -> CHUNK p <= 2 ^ 37 ->
  Z.max (3 * SECTION_SIZE p) (TARGET_SIZE p) < Z.of_nat fuel ->
  exists st, generate p fuel = Done st.
Proof.
  intros Hok Hnames Hchunk Hfuel.
  pose proof Hok as (HC & HB & HS).
  destruct (build_magic_map_total (MAGIC_OFFSETS p) [] Hnames) as [mm Hmm].
  destruct (chunk_loop_total (fun _ => gen_ascii_log fuel) mm
              (SECTION_SIZE p) (CHUNK p) HC fuel
              {| rng := Random_seed 42; written := 0; sink := [] |} 0 0)
    as [st1 H1]; [|lia|lia|].
  { intros idx rng size Hs1 Hs2. apply gen_ascii_log_total. lia. }
  destruct (chunk_loop_total (fun _ => gen_structured_records fuel) mm
              (SECTION_SIZE p) (CHUNK p) HC fuel st1 0 0)
    as [st2 H2]; [|lia|lia|].
  { intros idx rng size Hs1 Hs2. apply gen_structured_records_total; lia. }
  destruct (chunk_loop_total (fun _ => gen_random_data) mm
              (SECTION_SIZE p) (CHUNK p) HC fuel st2 0 0)
    as [st3 H3]; [|lia|lia|].
  { intros idx rng size Hs1 Hs2. unfold gen_random_data. eauto. }
  assert (E3 : written st3 = 3 * SECTION_SIZE p).
  { apply chunk_loop_section in H1;
      [|assumption|intros ? ? ? ? ?; apply gen_ascii_log_len|reflexivity].
    cbn [written] in H1. destruct H1 as (Hl1 & Hw1 & _).
    apply chunk_loop_section in H2;
      [|assumption|intros ? ? ? ? ?; apply gen_structured_records_len|assumption].
    destruct H2 as (Hl2 & Hw2 & _).
    apply chunk_loop_section in H3;
      [|assumption|intros ? ? ? ? ?; apply gen_random_data_len|assumption].
    destruct H3 as (Hl3 & Hw3 & _). lia. }
  destruct (chunk_loop_total gen_mixed mm
              (TARGET_SIZE p - written st3) (block_size p) HB fuel st3 0 0)
    as [st4 H4]; [|lia|lia|].
  { intros idx rng size Hs1 Hs2. apply gen_mixed_total. }
  exists st4. apply generate_sections. exists mm, st1, st2, st3.
  unfold sections. auto.
Qed.

(** A run that ends within some budget ends in the same state within any
    larger one. *)
Lemma generate_mono p fuel fuel' st :
  generate p fuel = Done st -> (fuel <= fuel')%nat ->
  generate p fuel' = Done st.
Proof.
  intros H Hle. apply generate_sections in H.
  destruct H as (mm & st1 & st2 & st3 & Hmm & H1 & H2 & H3 & H4).
  apply generate_sections. exists mm, st1, st2, st3.
  split; [assumption|]. unfold sections. repeat split.
  - eapply chunk_loop_mono; [|exact H1|exact Hle].
    intros idx rng size r Hg. now apply gen_ascii_log_mono with fuel.
  - eapply chunk_loop_mono; [|exact H2|exact Hle].
    intros idx rng size r Hg. now apply gen_structured_records_mono with fuel.
  - eapply chunk_loop_mono; [|exact H3|exact Hle]. auto.
  - eapply chunk_loop_mono; [|exact H4|exact Hle]. auto.
Qed.

(** Two runs that end, whatever their budgets, end in the same state. *)
Lemma generate_functional p fuel1 fuel2 st1 st2 :
  generate p fuel1 = Done st1 -> generate p fuel2 = Done st2 -> st1 = st2.
Proof.
  intros H1 H2.
  apply generate_mono with (fuel' := Nat.max fuel1 fuel2) in H1; [|lia].
  apply generate_mono with (fuel' := Nat.max fuel1 fuel2) in H2; [|lia].
  congruence.
Qed.

End Run.

End Writer.

(** ** The fixture written by [generate_sample.py] *)

Module SampleFacts.

Import Sample.

(** The mask and the shift of the script are the modulus and the quotient
    of the design's generator. *)
Lemma lcg_next_mod seed : lcg_next seed = spec_lcg_next seed.
Proof.
  unfold lcg_next, spec_lcg_next.
  change 0xFFFFFFFF with (Z.ones 32). apply Z.land_ones. lia.
Qed.

Lemma lcg_byte_mod seed : lcg_byte seed = spec_lcg_byte seed.
Proof.
  unfold lcg_byte, spec_lcg_byte.
  change 0xFF with (Z.ones 8). rewrite Z.land_ones by lia.
  now rewrite Z.shiftr_div_pow2 by lia.
Qed.

Lemma lcg_run_stream n : forall seed acc,
  fst (lcg_run n seed acc) = acc ++ spec_lcg_stream n seed.
Proof.
  induction n as [|n IH]; intros seed acc; cbn [lcg_run spec_lcg_stream fst].
  - now rewrite app_nil_r.
  - rewrite IH, <- app_assoc. cbn [app].
    now rewrite lcg_next_mod, lcg_byte_mod.
Qed.

Lemma range16_cases i :
  0 <= i < 16 -> In i range16.
Proof.
  intros H. unfold range16. apply in_map_iff. exists (Z.to_nat i).
  split; [lia|]. apply in_seq. lia.
Qed.

(** C9. The fixture file is, in order: a 64-byte header that starts with
    the magic "TVTS" and holds, little-endian and in this order, the version
    (1, 5), the flags, the file type, three reserved bytes, the data offset
    64, the data size 256, the entry count 16, the checksum, the 8-byte
    timestamp and the 32-byte null-padded name; a 256-byte table of 16
    entries of 16 bytes, entry [i] being a function of [i] alone; the
    literal text block; 128 bytes of the generator
    [state = (state * 1103515245 + 12345) mod 2^32] with output byte
    [(state >> 16) & 0xFF]; and 64 zero bytes. *)
Theorem sample_layout :
  exists f, Sample.main = Done f /\
    len f = 64 + 256 + len text + 128 + 64 /\
    slice f 0 4 = b "TVTS" /\
    slice f 4 6 = [1; 5] /\
    le_decode (slice f 6 8) = 0x0011 /\
    slice f 8 9 = [3] /\
    slice f 9 12 = [0; 0; 0] /\
    le_decode (slice f 12 16) = 64 /\
    le_decode (slice f 16 20) = 256 /\
    le_decode (slice f 20 22) = 16 /\
    le_decode (slice f 22 24) = 0xABCD /\
    le_decode (slice f 24 32) = 1706500000 /\
    slice f 32 64 = b "example_data_file" ++ zeros 15 /\
    (forall i, 0 <= i < 16 ->
       slice f (64 + 16 * i) (64 + 16 * i + 16) = entry_ints i) /\
    slice f 320 (320 + len text) = text /\
    slice f (320 + len text) (320 + len text + 128)
      = spec_lcg_stream 128 0xDEADBEEF /\
    (forall state, lcg_next state = (state * 1103515245 + 12345) mod 2 ^ 32) /\
    (forall state, lcg_byte state = (state / 2 ^ 16) mod 2 ^ 8) /\
    slice f (320 + len text + 128) (320 + len text + 128 + 64) = zeros 64.
Proof.
  eexists. split; [vm_compute; reflexivity|].
  do 12 (split; [vm_compute; reflexivity|]).
  split.
  { intros i Hi. apply range16_cases in Hi. vm_compute in Hi.
    repeat (destruct Hi as [<- | Hi]; [vm_compute; reflexivity|]).
    contradiction. }
  do 2 (split; [vm_compute; reflexivity|]).
  split; [exact lcg_next_mod|].
  split; [exact lcg_byte_mod|].
  vm_compute; reflexivity.
Qed.

End SampleFacts.

(** ** The benchmark file written by [gen_1gb.py] *)

Module Gen1gbFacts.

Import Gen1gb Splice Profiles Writer.

(** *** The table of magics *)

(** C7. The byte patterns of [MAGICS] are the ones of the design's table,
    and the ELF, PNG, ZIP and JPEG patterns are 16 bytes long; the PDF
    pattern, nine bytes of text and six zero bytes, is 15 bytes long, where
    the comment on its line says 16. *)
Theorem magics_table :
  MAGICS =
    [ ("ELF"%string,  [0x7F; 0x45; 0x4C; 0x46; 0x02; 0x01; 0x01; 0x00;
                       0; 0; 0; 0; 0; 0; 0; 0]);
      ("PNG"%string,  [0x89; 0x50; 0x4E; 0x47; 0x0D; 0x0A; 0x1A; 0x0A;
                       0; 0; 0; 0; 0; 0; 0; 0]);
      ("PDF"%string,  [0x25; 0x50; 0x44; 0x46; 0x2D; 0x31; 0x2E; 0x37; 0x0A;
                       0; 0; 0; 0; 0; 0]);
      ("ZIP"%string,  [0x50; 0x4B; 0x03; 0x04; 0; 0; 0; 0; 0; 0; 0; 0; 0; 0; 0; 0]);
      ("JPEG"%string, [0xFF; 0xD8; 0xFF; 0xE0; 0; 0; 0; 0; 0; 0; 0; 0; 0; 0; 0; 0]) ]
  /\ map (fun kv => (fst kv, len (snd kv))) MAGICS =
    [ ("ELF"%string, 16); ("PNG"%string, 16); ("PDF"%string, 15);
      ("ZIP"%string, 16); ("JPEG"%string, 16) ].
Proof. split; vm_compute; reflexivity. Qed.

(** *** The splice *)

Lemma plant_magics_app mm1 mm2 written chunk :
  plant_magics (mm1 ++ mm2) written chunk =
  plant_magics mm2 written (plant_magics mm1 written chunk).
Proof. unfold plant_magics. apply fold_left_app. Qed.

(** An entry that does not fit the chunk can be struck from the dict
    without changing what the loop does to the chunk. *)
Lemma plant_magics_drop mm1 e mm2 written chunk :
  ~ fits written (len chunk) e ->
  plant_magics (mm1 ++ e :: mm2) written chunk =
  plant_magics (mm1 ++ mm2) written chunk.
Proof.
  intros Hnf. rewrite !plant_magics_app.
  change (plant_magics (e :: mm2) written (plant_magics mm1 written chunk))
    with (plant_magics mm2 written
            (plant_one written (plant_magics mm1 written chunk) e)).
  rewrite plant_one_skip; [reflexivity|].
  now rewrite plant_magics_len.
Qed.

(** C10. The splice of one chunk is all-or-nothing and preserves the frame.
    The chunk keeps its length.  An entry whose whole span lies in the
    chunk is copied over that span; any other entry leaves the chunk as it
    is, in particular one that starts inside the chunk and runs past its
    end, which could as well be absent from the dict; no path of the splice
    raises.  Every position outside the spans of the entries that fit holds
    the byte the generator produced. *)
Theorem splice_all_or_nothing :
  forall (magic_map : list (Z * bytes)) (written : Z) (chunk : bytes),
    len (plant_magics magic_map written chunk) = len chunk /\
    (forall e, fits written (len chunk) e ->
       plant_one written chunk e =
       slice_assign chunk (fst e - written)
         (fst e - written + len (snd e)) (snd e)) /\
    (forall e, ~ fits written (len chunk) e ->
       plant_one written chunk e = chunk) /\
    (forall mo mdata,
       0 <= mo - written < len chunk ->
       len chunk < mo - written + len mdata ->
       plant_one written chunk (mo, mdata) = chunk /\
       forall mm1 mm2, magic_map = mm1 ++ (mo, mdata) :: mm2 ->
         plant_magics magic_map written chunk =
         plant_magics (mm1 ++ mm2) written chunk) /\
    (forall i, 0 <= i ->
       (forall e, In e magic_map -> fits written (len chunk) e ->
                  ~ covers written e i) ->
       item (plant_magics magic_map written chunk) i = item chunk i).
Proof.
  intros mm written chunk.
  split; [apply plant_magics_len|].
  split; [intros e; apply plant_one_fits|].
  split; [intros e; apply plant_one_skip|].
  split.
  - intros mo mdata Hin Hpast.
    assert (Hnf : ~ fits written (len chunk) (mo, mdata))
      by (unfold fits; cbn [fst snd]; lia).
    split; [now apply plant_one_skip|].
    intros mm1 mm2 ->. now apply plant_magics_drop.
  - intros i Hi Hclear. now apply plant_magics_frame.
Qed.

(** A magic inside the chunk is copied; one that runs past the end of the
    chunk is left out, and is copied neither whole nor in part; the same
    magic fits a chunk that starts three bytes later. *)
Example splice_inside :
  plant_magics [(2, [7; 7])] 0 [1; 1; 1; 1; 1; 1] = [1; 1; 7; 7; 1; 1].
Proof. reflexivity. Qed.

Example splice_past_the_end :
  plant_magics [(4, [7; 7; 7])] 0 [1; 1; 1; 1; 1; 1] = [1; 1; 1; 1; 1; 1].
Proof. reflexivity. Qed.

Example splice_next_chunk :
  plant_magics [(4, [7; 7; 7])] 3 [1; 1; 1; 1; 1; 1] = [1; 7; 7; 7; 1; 1].
Proof. reflexivity. Qed.

(** *** Determinism *)

Section Determinism.

Context {R : Random}.

(** C1. For the fixed seed and a fixed plan, any two runs that end write
    the same bytes: the file does not depend on the readings of the clock,
    on where the script sits, or on how many loop turns the run was
    allowed. *)
Theorem run_deterministic (p : plan) (fuel1 fuel2 : nat) (e1 e2 : env)
    (r1 r2 : result) :
  main p fuel1 e1 = Done r1 ->
  main p fuel2 e2 = Done r2 ->
  file r1 = file r2.
Proof.
  unfold main. intros H1 H2.
  apply bind_Done in H1. destruct H1 as [st1 [Hg1 H1]].
  apply bind_Done in H2. destruct H2 as [st2 [Hg2 H2]].
  injection H1 as <-. injection H2 as <-. cbn [file].
  now rewrite (generate_functional p fuel1 fuel2 st1 st2 Hg1 Hg2).
Qed.

End Determinism.

(** Two runs of the small plan on the concrete generator, at different
    times, from different directories, with different budgets. *)
Lemma run_deterministic_witness :
  match main (R := lcg_random) small 100
          {| time_start := 10; time_end := 25; script_dir := "/a" |},
        main (R := lcg_random) small 200
          {| time_start := 7000; time_end := 7001; script_dir := "/b/c" |}
  with
  | Done r1, Done r2 => file r1 = file r2 /\ elapsed r1 <> elapsed r2
  | _, _ => False
  end.
Proof.
  destruct (main small 100 _) as [r1| |] eqn:E1;
    [|vm_compute in E1; discriminate..].
  destruct (main small 200 _) as [r2| |] eqn:E2;
    [|vm_compute in E2; discriminate..].
  split.
  - exact (run_deterministic small 100 200 _ _ r1 r2 E1 E2).
  - vm_compute in E1, E2. injection E1 as <-. injection E2 as <-.
    cbn [elapsed]. discriminate.
Defined.

(** *** Reading a section of the file chunk by chunk *)

Section Sections.

Context {R : Random}.

Variable gen : Z -> rng_state -> Z -> outcome (bytes * rng_state).
Variable magic_map : list (Z * bytes).
Variable out : bytes.
Variables base bound step : Z.
Variable rng0 : rng_state.

Hypothesis gen_len : forall idx rng size data rng',
  gen idx rng size = Done (data, rng') -> 0 <= size -> len data = size.
Hypothesis base_nonneg : 0 <= base.
Hypothesis step_pos : 0 < step.
Hypothesis out_len : base + Z.max 0 bound <= len out.
Hypothesis chunks : section_chunks gen magic_map out base bound step rng0.

(** Chunk [k] of the section, as generated and as it stands in the file. *)
Lemma section_chunk k :
  0 <= k -> k * step < bound ->
  exists rng data rng',
    gen k rng (Z.min step (bound - k * step)) = Done (data, rng') /\
    len data = Z.min step (bound - k * step) /\
    slice out (base + k * step)
      (base + k * step + Z.min step (bound - k * step))
      = plant_magics magic_map (base + k * step) data.
Proof.
  intros Hk Hkb. destruct chunks as (rngs & _ & Hch).
  destruct (Hch k Hk Hkb) as [data [Hg Hs]].
  exists (rngs k), data, (rngs (k + 1)).
  split; [assumption|]. split; [|assumption].
  apply gen_len in Hg; [assumption|lia].
Qed.

(** A magic that fits chunk [k] and is apart from the other entries stands
    in the file at its offset. *)
Lemma section_planted e k :
  0 <= k -> k * step < bound ->
  In e magic_map ->
  fits (base + k * step) (Z.min step (bound - k * step)) e ->
  (forall e', In e' magic_map -> e' = e \/ apart e e') ->
  slice out (fst e) (fst e + len (snd e)) = snd e.
Proof.
  intros Hk Hkb Hin Hfits Hothers.
  destruct (section_chunk k Hk Hkb) as (rng & data & rng' & Hg & Hlen & Hs).
  pose proof (Z.mul_nonneg_nonneg k step Hk ltac:(lia)) as Hnn.
  pose proof (len_nonneg (snd e)) as Hle.
  set (w := base + k * step) in *.
  set (n := Z.min step (bound - k * step)) in *.
  pose proof Hfits as [[Hf1 Hf2] Hf3].
  replace (fst e) with (w + (fst e - w)) at 1 by lia.
  replace (fst e + len (snd e)) with (w + (fst e - w + len (snd e))) by lia.
  rewrite <- (slice_slice out w (w + n)) by lia.
  rewrite Hs. apply plant_magics_planted; [assumption|now rewrite Hlen|].
  intros e' He'. destruct (Hothers e' He'); auto.
Qed.

(** A position of chunk [k] that no fitting magic covers holds the byte
    the generator produced. *)
Lemma section_item k i :
  0 <= k -> k * step < bound ->
  0 <= i < Z.min step (bound - k * step) ->
  (forall e, In e magic_map ->
     fits (base + k * step) (Z.min step (bound - k * step)) e ->
     ~ covers (base + k * step) e i) ->
  exists rng data rng',
    gen k rng (Z.min step (bound - k * step)) = Done (data, rng') /\
    item out (base + k * step + i) = item data i.
Proof.
  intros Hk Hkb Hi Hclear.
  destruct (section_chunk k Hk Hkb) as (rng & data & rng' & Hg & Hlen & Hs).
  exists rng, data, rng'. split; [assumption|].
  pose proof (Z.mul_nonneg_nonneg k step Hk ltac:(lia)) as Hnn.
  rewrite <- (item_slice out (base + k * step)
                (base + k * step + Z.min step (bound - k * step))) by lia.
  rewrite Hs. apply plant_magics_frame; [lia|].
  intros e He Hf. rewrite Hlen in Hf. now apply Hclear.
Qed.

(** A slice of chunk [k] that no fitting magic touches is as generated. *)
Lemma section_slice k a z :
  0 <= k -> k * step < bound ->
  0 <= a <= z -> z <= Z.min step (bound - k * step) ->
  (forall e i, In e magic_map ->
     fits (base + k * step) (Z.min step (bound - k * step)) e ->
     a <= i < z -> ~ covers (base + k * step) e i) ->
  exists rng data rng',
    gen k rng (Z.min step (bound - k * step)) = Done (data, rng') /\
    slice out (base + k * step + a) (base + k * step + z) = slice data a z.
Proof.
  intros Hk Hkb Haz Hz Hclear.
  destruct (section_chunk k Hk Hkb) as (rng & data & rng' & Hg & Hlen & Hs).
  exists rng, data, rng'. split; [assumption|].
  pose proof (Z.mul_nonneg_nonneg k step Hk ltac:(lia)) as Hnn.
  rewrite <- (slice_slice out (base + k * step)
                (base + k * step + Z.min step (bound - k * step))) by lia.
  rewrite Hs. apply plant_magics_frame_slice; [lia|lia|].
  intros e i He Hf. rewrite Hlen in Hf. now apply Hclear.
Qed.

End Sections.

(** *** Properties of every plan *)

(** The two fixed-width fields at the head of a record. *)
Lemma record_fields (X : bytes) (a r ts val : Z) (payload : bytes) :
  0 <= a -> a + 32 <= len X ->
  slice X a (a + 32) =
    le_bytes 4 r ++ le_bytes 8 ts ++ le_bytes 4 val ++ payload ->
  slice X a (a + 4) = le_bytes 4 r /\
  slice X (a + 4) (a + 12) = le_bytes 8 ts.
Proof.
  intros Ha Hlen H. split.
  - replace a with (a + 0) at 1 by lia.
    rewrite <- (slice_slice X a (a + 32)) by lia.
    rewrite H, slice_app_l by (rewrite ?le_bytes_len; lia).
    change 4 with (len (le_bytes 4 r)) at 1. apply slice_all.
  - rewrite <- (slice_slice X a (a + 32)) by lia.
    rewrite H.
    change 4 with (len (le_bytes 4 r)) at 1.
    change 12 with (len (le_bytes 4 r) + len (le_bytes 8 ts)).
    apply slice_mid.
Qed.

Section General.

Context {R : Random}.

(** C8. The zero profile returns exactly [size] zero bytes; a zero block of
    the mixed section leaves the generator state as it found it; and in the
    file of a finished run, every byte of an even (zero) block of the mixed
    section that no planted magic covers is 0. *)
Theorem zero_blocks (p : plan) (fuel : nat) (st : wstate)
    (magic_map : list (Z * bytes)) :
  plan_ok p ->
  build_magic_map (MAGIC_OFFSETS p) [] = Done magic_map ->
  generate p fuel = Done st ->
  (forall size, 0 <= size ->
     len (gen_zeros size) = size /\
     forall i, 0 <= i < size -> item (gen_zeros size) i = Some 0) /\
  (forall block_idx rng size, block_idx mod 2 = 0 ->
     gen_mixed block_idx rng size = Done (gen_zeros size, rng)) /\
  (forall k i,
     0 <= k -> k mod 2 = 0 -> 0 <= i < block_size p ->
     3 * SECTION_SIZE p + k * block_size p + i < TARGET_SIZE p ->
     (forall e, In e magic_map ->
        fits (3 * SECTION_SIZE p + k * block_size p)
          (Z.min (block_size p)
             (TARGET_SIZE p - 3 * SECTION_SIZE p - k * block_size p)) e ->
        ~ covers (3 * SECTION_SIZE p + k * block_size p) e i) ->
     item (sink st) (3 * SECTION_SIZE p + k * block_size p + i) = Some 0).
Proof.
  intros [Hok Htile] Hmm Hrun. split; [|split].
  - intros size Hsize. split; [now apply gen_zeros_len|].
    intros i Hi. now apply item_zeros.
  - intros idx rng size Heven. unfold gen_mixed. now rewrite Heven.
  - intros k i Hk Heven Hi Hin Hclear.
    apply generate_sections in Hrun.
    destruct Hrun as (mm & st1 & st2 & st3 & Hmm' & Hsec).
    rewrite Hmm in Hmm'. injection Hmm' as <-.
    pose proof Hok as (HC & HB & HS).
    destruct (sections_layout p fuel magic_map st1 st2 st3 st Hok Hsec)
      as ((_ & _ & _ & Hw) & Hlen & _ & _ & _ & Hc4).
    pose proof (Z.mul_nonneg_nonneg k (block_size p) Hk ltac:(lia)) as Hnn.
    destruct (section_item gen_mixed magic_map (sink st)
                (3 * SECTION_SIZE p) (TARGET_SIZE p - 3 * SECTION_SIZE p)
                (block_size p) (rng st3) gen_mixed_len ltac:(lia) HB
                Hc4 k i Hk ltac:(lia) ltac:(lia) Hclear)
      as (rng & data & rng' & Hg & Hitem).
    rewrite Hitem. unfold gen_mixed in Hg. rewrite Heven in Hg.
    change (0 =? 0) with true in Hg. cbv iota in Hg.
    replace data with
      (gen_zeros (Z.min (block_size p)
         (TARGET_SIZE p - 3 * SECTION_SIZE p - k * block_size p)))
      by congruence.
    apply item_zeros. lia.
Qed.

(** A complete record of a chunk of the record section that no planted
    magic touches carries its index within the chunk as id, and a timestamp
    built on that index. *)
Lemma chunk_records (p : plan) (fuel : nat) (st : wstate)
    (magic_map : list (Z * bytes)) :
  steps_ok p ->
  build_magic_map (MAGIC_OFFSETS p) [] = Done magic_map ->
  generate p fuel = Done st ->
  forall k r,
    0 <= k -> k * CHUNK p < SECTION_SIZE p ->
    0 <= r -> 32 * r + 32 <= Z.min (CHUNK p) (SECTION_SIZE p - k * CHUNK p) ->
    (forall e i, In e magic_map ->
       fits (SECTION_SIZE p + k * CHUNK p)
         (Z.min (CHUNK p) (SECTION_SIZE p - k * CHUNK p)) e ->
       32 * r <= i < 32 * r + 32 ->
       ~ covers (SECTION_SIZE p + k * CHUNK p) e i) ->
    le_decode (slice (sink st)
                 (SECTION_SIZE p + k * CHUNK p + 32 * r)
                 (SECTION_SIZE p + k * CHUNK p + 32 * r + 4)) = r /\
    exists jitter, 0 <= jitter <= 50 /\
      le_decode (slice (sink st)
                   (SECTION_SIZE p + k * CHUNK p + 32 * r + 4)
                   (SECTION_SIZE p + k * CHUNK p + 32 * r + 12))
        = 1700000000 + r * 100 + jitter.
Proof.
  intros Hok Hmm Hrun k r Hk Hkb Hr Hfit Hclear.
  apply generate_sections in Hrun.
  destruct Hrun as (mm & st1 & st2 & st3 & Hmm' & Hsec).
  rewrite Hmm in Hmm'. injection Hmm' as <-.
  pose proof Hok as (HC & HB & HS).
  destruct (sections_layout p fuel magic_map st1 st2 st3 st Hok Hsec)
    as ((_ & _ & _ & Hw) & Hlen & _ & Hc2 & _).
  pose proof (Z.mul_nonneg_nonneg k (CHUNK p) Hk ltac:(lia)) as Hnn.
  destruct (section_slice (fun _ => gen_structured_records fuel) magic_map
              (sink st) (SECTION_SIZE p) (SECTION_SIZE p) (CHUNK p) (rng st1)
              ltac:(intros ? ? ? ? ?; apply gen_structured_records_len)
              HS HC ltac:(lia) Hc2 k (32 * r) (32 * r + 32)
              Hk Hkb ltac:(lia) Hfit Hclear)
    as (rng & data & rng' & Hg & Hs).
  destruct (gen_structured_records_record _ _ _ _ _ r Hg Hr Hfit)
    as (jitter & val & payload & Hj & Hv & Hp & Hr32 & Hrec).
  rewrite <- Hs in Hrec.
  replace (SECTION_SIZE p + k * CHUNK p + (32 * r + 32))
    with (SECTION_SIZE p + k * CHUNK p + 32 * r + 32) in Hrec by lia.
  apply record_fields in Hrec; [|lia|lia].
  destruct Hrec as [Hid Hts].
  replace (SECTION_SIZE p + k * CHUNK p + 32 * r + 4 + 8)
    with (SECTION_SIZE p + k * CHUNK p + 32 * r + 12) in Hts by lia.
  split.
  - rewrite Hid. apply (le_decode_le_bytes 4 r).
    change (256 ^ Z.of_nat 4) with (2 ^ 32). lia.
  - exists jitter. split; [assumption|].
    rewrite Hts. apply (le_decode_le_bytes 8).
    change (256 ^ Z.of_nat 8) with (2 ^ 64). lia.
Qed.

(** C6, as the code has it.  In the file of a finished run, take chunk
    [k] of the structured-record section and a complete record [r] of that
    chunk which no planted magic touches.  Its 4-byte little-endian id is
    [r], the index of the record within its chunk: ids count up by one from
    0 within a chunk and start over at 0 in the next chunk.  Its 8-byte
    little-endian timestamp is [1700000000 + r * 100 + jitter] with
    [jitter] in [0, 50]. *)
Theorem records_per_chunk (p : plan) (fuel : nat) (st : wstate)
    (magic_map : list (Z * bytes)) :
  steps_ok p ->
  build_magic_map (MAGIC_OFFSETS p) [] = Done magic_map ->
  generate p fuel = Done st ->
  forall k r,
    0 <= k -> k * CHUNK p < SECTION_SIZE p ->
    0 <= r -> 32 * r + 32 <= Z.min (CHUNK p) (SECTION_SIZE p - k * CHUNK p) ->
    (forall e i, In e magic_map ->
       fits (SECTION_SIZE p + k * CHUNK p)
         (Z.min (CHUNK p) (SECTION_SIZE p - k * CHUNK p)) e ->
       32 * r <= i < 32 * r + 32 ->
       ~ covers (SECTION_SIZE p + k * CHUNK p) e i) ->
    le_decode (slice (sink st)
                 (SECTION_SIZE p + k * CHUNK p + 32 * r)
                 (SECTION_SIZE p + k * CHUNK p + 32 * r + 4)) = r /\
    exists jitter, 0 <= jitter <= 50 /\
      le_decode (slice (sink st)
                   (SECTION_SIZE p + k * CHUNK p + 32 * r + 4)
                   (SECTION_SIZE p + k * CHUNK p + 32 * r + 12))
        = 1700000000 + r * 100 + jitter.
Proof. exact (chunk_records p fuel st magic_map). Qed.

(** The first line of every call of [gen_ascii_log] is stamped from the
    base timestamp. *)
Lemma ascii_log_loop_grows fuel : forall rng size buf ts buf' rng',
  ascii_log_loop fuel rng size buf ts = Done (buf', rng') ->
  exists rest, buf' = buf ++ rest.
Proof.
  induction fuel as [|fuel IH]; intros rng size buf ts buf' rng' H;
    [discriminate|].
  cbn [ascii_log_loop] in H.
  destruct (len buf <? size).
  - destruct (randint rng 1 5000) as [d rng1].
    destruct (choice rng1 levels) as [level rng2].
    destruct (choice rng2 modules) as [mod_ rng3].
    destruct (choice rng3 messages) as [msg rng4].
    apply IH in H. destruct H as [rest ->].
    eexists. now rewrite <- app_assoc.
  - injection H as <- <-. exists []. now rewrite app_nil_r.
Qed.

Lemma gen_ascii_log_first_line fuel rng size data rng' :
  gen_ascii_log fuel rng size = Done (data, rng') -> 0 < size ->
  exists d level mod_ msg rest,
    1 <= d <= 5000 /\
    data = take size (log_line (1700000000 + d) level mod_ msg ++ rest).
Proof.
  unfold gen_ascii_log. intros H Hsize.
  apply bind_Done in H. destruct H as [[buf rng1] [Hloop H]].
  injection H as <- <-.
  destruct fuel as [|fuel]; [discriminate|].
  cbn [ascii_log_loop] in Hloop.
  change (len (@nil Z)) with 0 in Hloop.
  destruct (Z.ltb_spec 0 size); [|lia].
  pose proof (randint_range rng 1 5000 ltac:(lia)) as Hd.
  destruct (randint rng 1 5000) as [d rng2]. cbn [fst] in Hd.
  destruct (choice rng2 levels) as [level rng3].
  destruct (choice rng3 modules) as [mod_ rng4].
  destruct (choice rng4 messages) as [msg rng5].
  apply ascii_log_loop_grows in Hloop. destruct Hloop as [rest ->].
  exists d, level, mod_, msg, rest. split; [assumption|reflexivity].
Qed.

Lemma gen_zeros_app a b' :
  0 <= a -> 0 <= b' -> gen_zeros a ++ gen_zeros b' = gen_zeros (a + b').
Proof.
  intros Ha Hb. unfold gen_zeros, zeros.
  rewrite Z2Nat.inj_add by assumption. symmetry. apply repeat_app.
Qed.

(** The id field of a complete record of one call. *)
Lemma gen_structured_records_id f rng size data rng' r :
  gen_structured_records f rng size = Done (data, rng') ->
  0 <= r -> 32 * r + 32 <= size ->
  0 <= r < 2 ^ 32 /\ slice data (32 * r) (32 * r + 4) = le_bytes 4 r.
Proof.
  intros Hg Hr Hsize.
  pose proof (gen_structured_records_len _ _ _ _ _ Hg ltac:(lia)) as Hlen.
  destruct (gen_structured_records_record _ _ _ _ _ r Hg Hr Hsize)
    as (jitter & val & payload & _ & _ & _ & Hr32 & Hrec).
  apply record_fields in Hrec; [|lia|lia]. split; [assumption|].
  exact (proj1 Hrec).
Qed.

(** Two calls in a row never give the bytes of one call: where the second
    call begins, at a whole number [n >= 1] of records, it writes the id 0
    and the single call writes the id [n]. *)
Lemma records_two_calls f rng n size d1 rng1 d2 rng2 d rng' :
  1 <= n -> 32 <= size ->
  gen_structured_records f rng (32 * n) = Done (d1, rng1) ->
  gen_structured_records f rng1 size = Done (d2, rng2) ->
  gen_structured_records f rng (32 * n + size) = Done (d, rng') ->
  d1 ++ d2 <> d.
Proof.
  intros Hn Hsize H1 H2 H Heq.
  pose proof (gen_structured_records_len _ _ _ _ _ H1 ltac:(lia)) as Hl1.
  destruct (gen_structured_records_id _ _ _ _ _ 0 H2 ltac:(lia) ltac:(lia))
    as [_ Hid2].
  destruct (gen_structured_records_id _ _ _ _ _ n H ltac:(lia) ltac:(lia))
    as [Hn32 Hid].
  rewrite <- Heq in Hid. rewrite <- Hl1 in Hid.
  replace (len d1) with (len d1 + 0) in Hid at 1 by lia.
  rewrite slice_app_r in Hid by lia.
  change (32 * 0) with 0 in Hid2. change (0 + 4) with 4 in Hid2.
  rewrite Hid2 in Hid.
  apply (f_equal le_decode) in Hid.
  rewrite (le_decode_le_bytes 4 n) in Hid
    by (change (256 ^ Z.of_nat 4) with (2 ^ 32); lia).
  change (le_decode (le_bytes 4 0)) with 0 in Hid. lia.
Qed.

(** C4, as the code has it.  Within a section every chunk is one call of
    the section's generator on the generator state the chunk before it
    left, so the stream of randomness runs on across chunk boundaries;
    but each call starts its own local state afresh.  The zero profile
    gives the same bytes chunk by chunk as in one call.  A call of the
    record generator numbers its records from 0, so two calls in a row
    never give the bytes of one call for the whole length; and a call of
    the log generator stamps its first line from the base 1700000000,
    wherever in the section the chunk lies. *)
Theorem chunks_call_afresh (p : plan) (fuel : nat) (st : wstate) :
  steps_ok p ->
  generate p fuel = Done st ->
  (exists magic_map st1 st2 st3,
     sections p fuel magic_map st1 st2 st3 st /\
     section_chunks (fun _ => gen_ascii_log fuel) magic_map (sink st)
       0 (SECTION_SIZE p) (CHUNK p) (Random_seed 42) /\
     section_chunks (fun _ => gen_structured_records fuel) magic_map (sink st)
       (SECTION_SIZE p) (SECTION_SIZE p) (CHUNK p) (rng st1) /\
     section_chunks (fun _ => gen_random_data) magic_map (sink st)
       (2 * SECTION_SIZE p) (SECTION_SIZE p) (CHUNK p) (rng st2) /\
     section_chunks gen_mixed magic_map (sink st)
       (3 * SECTION_SIZE p) (TARGET_SIZE p - 3 * SECTION_SIZE p)
       (block_size p) (rng st3)) /\
  (forall a b', 0 <= a -> 0 <= b' ->
     gen_zeros a ++ gen_zeros b' = gen_zeros (a + b')) /\
  (forall f rng size data rng' r,
     gen_structured_records f rng size = Done (data, rng') ->
     0 <= r -> 32 * r + 32 <= size ->
     slice data (32 * r) (32 * r + 4) = le_bytes 4 r) /\
  (forall f rng n size d1 rng1 d2 rng2 d rng',
     1 <= n -> 32 <= size ->
     gen_structured_records f rng (32 * n) = Done (d1, rng1) ->
     gen_structured_records f rng1 size = Done (d2, rng2) ->
     gen_structured_records f rng (32 * n + size) = Done (d, rng') ->
     d1 ++ d2 <> d) /\
  (forall f rng size data rng',
     gen_ascii_log f rng size = Done (data, rng') -> 0 < size ->
     exists d level mod_ msg rest,
       1 <= d <= 5000 /\
       data = take size (log_line (1700000000 + d) level mod_ msg ++ rest)).
Proof.
  intros Hok Hrun. split; [|split; [|split; [|split]]].
  - apply generate_sections in Hrun.
    destruct Hrun as (mm & st1 & st2 & st3 & Hmm & Hsec).
    exists mm, st1, st2, st3. split; [assumption|].
    destruct (sections_layout p fuel mm st1 st2 st3 st Hok Hsec)
      as (_ & _ & Hc1 & Hc2 & Hc3 & Hc4).
    split; [exact Hc1|]. split; [exact Hc2|]. split; [exact Hc3|exact Hc4].
  - exact gen_zeros_app.
  - intros f rng size data rng' r Hg Hr Hsize.
    pose proof (gen_structured_records_len _ _ _ _ _ Hg ltac:(lia)) as Hlen.
    destruct (gen_structured_records_record _ _ _ _ _ r Hg Hr Hsize)
      as (jitter & val & payload & _ & _ & _ & _ & Hrec).
    apply record_fields in Hrec; [|lia|lia]. exact (proj1 Hrec).
  - intros f rng n size d1 rng1 d2 rng2 d rng' Hn Hsize H1 H2 H Heq.
    exact (records_two_calls f rng n size d1 rng1 d2 rng2 d rng'
             Hn Hsize H1 H2 H Heq).
  - intros f rng size data rng'. apply gen_ascii_log_first_line.
Qed.

(** C5, as the code has it.  Building the plan checks nothing about the
    magics or the sections: the one failure before the first write is the
    [KeyError] of a name that [MAGICS] does not have.  Any other plan with
    positive steps, whatever its magics cross or overlap and whether or not
    its sections tile the target, runs to the end and writes the larger of
    [TARGET_SIZE] and three sections. *)
Theorem no_plan_validation (p : plan) (fuel : nat) :
  steps_ok p -> CHUNK p <= 2 ^ 37 ->
  Z.max (3 * SECTION_SIZE p) (TARGET_SIZE p) < Z.of_nat fuel ->
  (names_known p ->
     exists st, generate p fuel = Done st /\
       written st = Z.max (3 * SECTION_SIZE p) (TARGET_SIZE p) /\
       len (sink st) = Z.max (3 * SECTION_SIZE p) (TARGET_SIZE p)) /\
  (~ names_known p -> forall fuel', generate p fuel' = Raised KeyError).
Proof.
  intros Hok Hchunk Hfuel. split.
  - intros Hnames.
    destruct (generate_total p fuel Hok Hnames Hchunk Hfuel) as [st Hrun].
    exists st. split; [assumption|].
    apply generate_sections in Hrun.
    destruct Hrun as (mm & st1 & st2 & st3 & Hmm & Hsec).
    destruct (sections_layout p fuel mm st1 st2 st3 st Hok Hsec)
      as ((_ & _ & _ & Hw) & Hlen & _).
    split; [assumption|lia].
  - intros Hunknown fuel'. unfold generate.
    now rewrite (build_magic_map_unknown _ [] Hunknown).
Qed.

End General.

(** *** The shipped plan *)

(** The dict [main] builds from the shipped [MAGIC_OFFSETS]. *)
Definition shipped_magic_map : list (Z * bytes) :=
  Eval vm_compute in
    match build_magic_map (MAGIC_OFFSETS shipped) [] with
    | Done magic_map => magic_map
    | _ => []
    end.

Lemma shipped_build :
  build_magic_map (MAGIC_OFFSETS shipped) [] = Done shipped_magic_map.
Proof. vm_compute. reflexivity. Qed.

Lemma shipped_steps_ok : steps_ok shipped.
Proof. unfold steps_ok. cbn [CHUNK block_size SECTION_SIZE shipped]. lia. Qed.

Lemma shipped_plan_ok : plan_ok shipped.
Proof.
  split; [exact shipped_steps_ok|].
  cbn [SECTION_SIZE TARGET_SIZE shipped]. lia.
Qed.

Lemma shipped_names_known : names_known shipped.
Proof.
  unfold names_known. cbn [MAGIC_OFFSETS shipped].
  repeat (constructor; [eexists; vm_compute; reflexivity|]).
  constructor.
Qed.

(** Every other entry of the dict is the entry itself or apart from it:
    settled by going through the entries. *)
Ltac others_apart :=
  let e' := fresh "e'" in
  let He' := fresh "He'" in
  intros e' He'; unfold shipped_magic_map in He'; cbn [In] in He';
  repeat (destruct He' as [<- | He']);
  try contradiction;
  first [ left; reflexivity
        | right; cbv [apart fst snd len List.length]; lia ].

(** No entry of the shipped dict fits the chunk and covers the position:
    settled by going through the entries. *)
Ltac none_covers :=
  let e := fresh "e" in
  let He := fresh "He" in
  let Hf := fresh "Hf" in
  let Hc := fresh "Hc" in
  intros e He Hf Hc; unfold shipped_magic_map in He; cbn [In] in He;
  repeat (destruct He as [<- | He]);
  try contradiction;
  cbv [fits covers fst snd len List.length] in Hf, Hc; lia.

Section Shipped.

Context {R : Random}.

(** The shipped run ends: a budget of one turn per byte is enough. *)
Lemma shipped_run_ends : exists fuel st, generate shipped fuel = Done st.
Proof.
  exists (Z.to_nat (TARGET_SIZE shipped + 1)).
  apply generate_total.
  - exact shipped_steps_ok.
  - exact shipped_names_known.
  - cbn [CHUNK shipped]. lia.
  - rewrite Z2Nat.id by (cbn [TARGET_SIZE shipped]; lia).
    cbn [SECTION_SIZE TARGET_SIZE shipped]. lia.
Qed.

(** What a finished shipped run looks like. *)
Lemma shipped_layout fuel st :
  generate shipped fuel = Done st ->
  exists st1 st2 st3,
    sections shipped fuel shipped_magic_map st1 st2 st3 st /\
    (written st1 = 268435456 /\ written st2 = 536870912 /\
     written st3 = 805306368 /\ written st = 1073741824) /\
    len (sink st) = 1073741824 /\
    section_chunks (fun _ => gen_ascii_log fuel) shipped_magic_map (sink st)
      0 268435456 4194304 (Random_seed 42) /\
    section_chunks (fun _ => gen_structured_records fuel) shipped_magic_map
      (sink st) 268435456 268435456 4194304 (rng st1) /\
    section_chunks (fun _ => gen_random_data) shipped_magic_map (sink st)
      536870912 268435456 4194304 (rng st2) /\
    section_chunks gen_mixed shipped_magic_map (sink st)
      805306368 268435456 1048576 (rng st3).
Proof.
  intros H. apply generate_sections in H.
  destruct H as (mm & st1 & st2 & st3 & Hmm & Hsec).
  rewrite shipped_build in Hmm. injection Hmm as <-.
  exists st1, st2, st3. split; [assumption|].
  pose proof (sections_layout shipped fuel shipped_magic_map st1 st2 st3 st
                shipped_steps_ok Hsec) as Hl.
  change (SECTION_SIZE shipped) with 268435456 in Hl.
  change (TARGET_SIZE shipped) with 1073741824 in Hl.
  change (CHUNK shipped) with 4194304 in Hl.
  change (block_size shipped) with 1048576 in Hl.
  change (2 * 268435456) with 536870912 in Hl.
  change (3 * 268435456) with 805306368 in Hl.
  change (1073741824 - 805306368) with 268435456 in Hl.
  change (Z.max 805306368 1073741824) with 1073741824 in Hl.
  destruct Hl as (Hw & Hlen & Hc).
  repeat split; try tauto. destruct Hw as (_ & _ & _ & Hw4). lia.
Qed.

(** C2. The shipped run ends, and every run of it that ends has written
    exactly [TARGET_SIZE] = 1 * 1024^3 bytes: the three loops over the fixed
    sections leave [written] at 256, 512 and 768 MiB, the mixed loop takes
    the remaining 256 MiB, and the file holds as many bytes as [written]
    counts.  Every generator returns exactly the number of bytes it is
    asked for. *)
Theorem exact_sizing :
  (exists fuel st, generate shipped fuel = Done st) /\
  (forall fuel st, generate shipped fuel = Done st ->
     len (sink st) = 1 * 1024 * 1024 * 1024 /\
     written st = TARGET_SIZE shipped /\
     exists magic_map st1 st2 st3,
       sections shipped fuel magic_map st1 st2 st3 st /\
       written st1 = 256 * 1024 * 1024 /\
       written st2 = 512 * 1024 * 1024 /\
       written st3 = 768 * 1024 * 1024 /\
       TARGET_SIZE shipped - written st3 = 256 * 1024 * 1024) /\
  (forall fuel rng size data rng', 0 <= size ->
     (gen_ascii_log fuel rng size = Done (data, rng') -> len data = size) /\
     (gen_structured_records fuel rng size = Done (data, rng') ->
        len data = size) /\
     (gen_random_data rng size = Done (data, rng') -> len data = size) /\
     len (gen_zeros size) = size).
Proof.
  split; [exact shipped_run_ends|]. split.
  - intros fuel st H. apply shipped_layout in H.
    destruct H as (st1 & st2 & st3 & Hsec & (H1 & H2 & H3 & H4) & Hlen & _).
    change (TARGET_SIZE shipped) with 1073741824.
    split; [lia|]. split; [lia|].
    exists shipped_magic_map, st1, st2, st3. split; [assumption|]. lia.
  - intros fuel rng size data rng' Hsize. repeat split.
    + intros H. eapply gen_ascii_log_len; eassumption.
    + intros H. eapply gen_structured_records_len; eassumption.
    + intros H. eapply gen_random_data_len; eassumption.
    + now apply gen_zeros_len.
Qed.

(** The magic at [offset] stands in the file when it fits chunk [k] of the
    section whose chunks are [Hc]. *)
Ltac planted_in Hc Hgen Hlen k :=
  match goal with
  | |- slice ?out ?offset (?offset + len ?pattern) = ?pattern =>
      refine (section_planted _ shipped_magic_map out _ _ _ _ Hgen _ _ _ Hc
                (offset, pattern) k _ _ _ _ _);
      [ lia | lia | rewrite Hlen; lia | lia | lia
      | vm_compute; tauto
      | cbv [fits fst snd len List.length]; lia
      | others_apart ]
  end.

(** C3. In the file of a finished shipped run, each of the eleven entries of
    [MAGIC_OFFSETS] has its pattern at its offset:
    [output[offset : offset + len(pattern)] == pattern]. *)
Theorem signatures_planted :
  (exists fuel st, generate shipped fuel = Done st) /\
  (forall fuel st, generate shipped fuel = Done st ->
     forall offset name, In (offset, name) (MAGIC_OFFSETS shipped) ->
       exists pattern,
         dict_get MAGICS name = Done pattern /\
         slice (sink st) offset (offset + len pattern) = pattern).
Proof.
  split; [exact shipped_run_ends|].
  intros fuel st H offset name Hin. apply shipped_layout in H.
  destruct H as (st1 & st2 & st3 & _ & _ & Hlen & Hc1 & Hc2 & Hc3 & Hc4).
  assert (Hg1 : forall (idx : Z) rng size data rng',
             gen_ascii_log fuel rng size = Done (data, rng') ->
             0 <= size -> len data = size)
    by (intros ? ? ? ? ?; apply gen_ascii_log_len).
  assert (Hg2 : forall (idx : Z) rng size data rng',
             gen_structured_records fuel rng size = Done (data, rng') ->
             0 <= size -> len data = size)
    by (intros ? ? ? ? ?; apply gen_structured_records_len).
  assert (Hg3 : forall (idx : Z) rng size data rng',
             gen_random_data rng size = Done (data, rng') ->
             0 <= size -> len data = size)
    by (intros ? ? ? ? ?; apply gen_random_data_len).
  pose proof gen_mixed_len as Hg4.
  cbn [MAGIC_OFFSETS shipped In] in Hin.
  repeat (destruct Hin as [Hin | Hin]); try contradiction;
    injection Hin as <- <-;
    (eexists; split; [vm_compute; reflexivity|]).
  - planted_in Hc1 Hg1 Hlen 0.
  - planted_in Hc1 Hg1 Hlen 0.
  - planted_in Hc1 Hg1 Hlen 12.
  - planted_in Hc1 Hg1 Hlen 25.
  - planted_in Hc1 Hg1 Hlen 50.
  - planted_in Hc2 Hg2 Hlen 19.
  - planted_in Hc2 Hg2 Hlen 61.
  - planted_in Hc3 Hg3 Hlen 0.
  - planted_in Hc3 Hg3 Hlen 59.
  - planted_in Hc4 Hg4 Hlen 132.
  - planted_in Hc4 Hg4 Hlen 255.
Qed.

End Shipped.

(** *** Runs of the small plans *)

Definition small_magic_map : list (Z * bytes) :=
  Eval vm_compute in
    match build_magic_map (MAGIC_OFFSETS small) [] with
    | Done magic_map => magic_map
    | _ => []
    end.

Lemma small_steps_ok : steps_ok small.
Proof. unfold steps_ok. cbn [CHUNK block_size SECTION_SIZE small]. lia. Qed.

Lemma small_plan_ok : plan_ok small.
Proof.
  split; [exact small_steps_ok|].
  cbn [SECTION_SIZE TARGET_SIZE small]. lia.
Qed.

Lemma small_names_known : names_known small.
Proof.
  unfold names_known. cbn [MAGIC_OFFSETS small].
  repeat (constructor; [eexists; vm_compute; reflexivity|]).
  constructor.
Qed.

(** Go through the entries of the small dict. *)
Ltac small_entries He :=
  unfold small_magic_map in He; cbn [In] in He;
  repeat (destruct He as [<- | He]); try contradiction.

(** The run [run] ends: evaluate it, keep its final state as [st]. *)
Ltac run_ends run st E :=
  let Hd := fresh "Hd" in
  assert (Hd : output run <> None) by (vm_compute; discriminate);
  destruct run as [st| |] eqn:E;
  [|exfalso; apply Hd; rewrite ?E; reflexivity..];
  clear Hd.

(** Byte 325 of the small file lies in the third block of the mixed
    section, a zero block that no magic touches. *)
Lemma zero_blocks_witness :
  match generate (R := lcg_random) small 100 with
  | Done st => item (sink st) (3 * 96 + 2 * 16 + 5) = Some 0
  | _ => False
  end.
Proof.
  run_ends (generate (R := lcg_random) small 100) st E.
  refine (proj2 (proj2 (zero_blocks small 100 st small_magic_map
                          small_plan_ok _ E)) 2 5 _ _ _ _ _).
  - vm_compute. reflexivity.
  - lia.
  - reflexivity.
  - cbn [block_size small]. lia.
  - cbn [block_size SECTION_SIZE TARGET_SIZE small]. lia.
  - intros e He Hf Hc. small_entries He;
      cbv [fits covers fst snd len List.length
           SECTION_SIZE block_size TARGET_SIZE small] in Hf, Hc; lia.
Defined.

(** The record at byte 160 of the small file opens the second chunk of the
    record section: its id is 0. *)
Lemma records_per_chunk_witness :
  match generate (R := lcg_random) small 100 with
  | Done st =>
      le_decode (slice (sink st) (96 + 1 * 64 + 32 * 0)
                   (96 + 1 * 64 + 32 * 0 + 4)) = 0 /\
      exists jitter, 0 <= jitter <= 50 /\
        le_decode (slice (sink st) (96 + 1 * 64 + 32 * 0 + 4)
                     (96 + 1 * 64 + 32 * 0 + 12))
          = 1700000000 + 0 * 100 + jitter
  | _ => False
  end.
Proof.
  run_ends (generate (R := lcg_random) small 100) st E.
  refine (records_per_chunk small 100 st small_magic_map
            small_steps_ok _ E 1 0 _ _ _ _ _).
  - vm_compute. reflexivity.
  - lia.
  - cbn [CHUNK SECTION_SIZE small]. lia.
  - lia.
  - cbn [CHUNK SECTION_SIZE small]. lia.
  - intros e i He Hf Hi Hc. small_entries He;
      cbv [fits covers fst snd len List.length
           SECTION_SIZE CHUNK small] in Hf, Hc; lia.
Defined.

(** C6 as the design states it: the ids of the complete records count up
    by one from 0 across the whole record section, each with its timestamp. *)
Definition ids_count_up (p : plan) (out : bytes) : Prop :=
  forall r, 0 <= r -> 32 * r + 32 <= SECTION_SIZE p ->
    le_decode (slice out (SECTION_SIZE p + 32 * r)
                 (SECTION_SIZE p + 32 * r + 4)) = r /\
    exists jitter, 0 <= jitter <= 50 /\
      le_decode (slice out (SECTION_SIZE p + 32 * r + 4)
                   (SECTION_SIZE p + 32 * r + 12))
        = 1700000000 + r * 100 + jitter.

(** In the shipped file the record that opens the second chunk of the
    record section, at 256 MiB + 4 MiB, is record 131072 of the section and
    carries the id 0. *)
Lemma ids_count_up_fails :
  ~ (forall (R : Random) fuel st,
       generate shipped fuel = Done st -> ids_count_up shipped (sink st)).
Proof.
  intros H.
  destruct (shipped_run_ends (R := lcg_random)) as (fuel & st & Hrun).
  destruct (H lcg_random fuel st Hrun 131072) as [Hid _];
    [lia|cbn [SECTION_SIZE shipped]; lia|].
  destruct (chunk_records shipped fuel st shipped_magic_map
              shipped_steps_ok shipped_build Hrun 1 0) as [Hid' _];
    [lia|cbn [CHUNK SECTION_SIZE shipped]; lia|lia
    |cbn [CHUNK SECTION_SIZE shipped]; lia| |].
  - intros e i He Hf Hi Hc. unfold shipped_magic_map in He. cbn [In] in He.
    repeat (destruct He as [<- | He]); try contradiction;
      cbv [fits covers fst snd len List.length
           SECTION_SIZE CHUNK shipped] in Hf, Hc; lia.
  - change (SECTION_SIZE shipped + 32 * 131072) with 272629760 in Hid.
    change (SECTION_SIZE shipped + 1 * CHUNK shipped + 32 * 0)
      with 272629760 in Hid'.
    rewrite Hid' in Hid. discriminate.
Qed.

(** The chunks of the small file, read off a run. *)
Lemma chunks_call_afresh_witness :
  match generate (R := lcg_random) small 100 with
  | Done st =>
      exists magic_map st1 st2 st3,
        sections small 100 magic_map st1 st2 st3 st /\
        section_chunks (fun _ => gen_ascii_log 100) magic_map (sink st)
          0 (SECTION_SIZE small) (CHUNK small) (Random_seed 42) /\
        section_chunks (fun _ => gen_structured_records 100) magic_map
          (sink st) (SECTION_SIZE small) (SECTION_SIZE small) (CHUNK small)
          (rng st1) /\
        section_chunks (fun _ => gen_random_data) magic_map (sink st)
          (2 * SECTION_SIZE small) (SECTION_SIZE small) (CHUNK small)
          (rng st2) /\
        section_chunks gen_mixed magic_map (sink st)
          (3 * SECTION_SIZE small)
          (TARGET_SIZE small - 3 * SECTION_SIZE small)
          (block_size small) (rng st3)
  | _ => False
  end.
Proof.
  run_ends (generate (R := lcg_random) small 100) st E.
  pose proof (proj1 (chunks_call_afresh small 100 st small_steps_ok E)) as H.
  exact H.
Defined.

(** C4 as the design states it, for two runs: outside the spans of the
    magics the two files hold the same bytes. *)
Definition same_outside_signatures (magic_map : list (Z * bytes))
    (out1 out2 : bytes) : Prop :=
  forall i, 0 <= i ->
    (forall e, In e magic_map -> ~ (fst e <= i < fst e + len (snd e))) ->
    item out1 i = item out2 i.

(** And for one generator: two calls in a row, the second on the state the
    first left, give the bytes of one call for the whole length. *)
Definition chunk_agnostic {R : Random}
    (gen : rng_state -> Z -> outcome (bytes * rng_state)) : Prop :=
  forall rng a b' d1 rng1 d2 rng2 d rng',
    0 <= a -> 0 <= b' ->
    gen rng a = Done (d1, rng1) ->
    gen rng1 b' = Done (d2, rng2) ->
    gen rng (a + b') = Done (d, rng') ->
    d1 ++ d2 = d.

(** The small plan run in chunks of 64 and of 32 bytes: byte 128, outside
    every magic, is the id byte of record 1 in the first file and of a
    record 0 in the second.  Neither the record generator nor the log
    generator gives in two calls what it gives in one. *)
Lemma chunk_size_matters :
  match output (generate (R := lcg_random) small 100),
        output (generate (R := lcg_random) small32 100) with
  | Some out64, Some out32 =>
      ~ same_outside_signatures small_magic_map out64 out32
  | _, _ => False
  end /\
  ~ chunk_agnostic (R := lcg_random) (gen_structured_records 100) /\
  ~ chunk_agnostic (R := lcg_random) (gen_ascii_log 100).
Proof.
  split; [|split].
  - assert (H64 : option_map (fun f => item f 128)
                    (output (generate (R := lcg_random) small 100))
                  = Some (Some 1)) by (vm_compute; reflexivity).
    assert (H32 : option_map (fun f => item f 128)
                    (output (generate (R := lcg_random) small32 100))
                  = Some (Some 0)) by (vm_compute; reflexivity).
    revert H64 H32.
    generalize (output (generate (R := lcg_random) small 100)).
    generalize (output (generate (R := lcg_random) small32 100)).
    intros [out32|] [out64|] H64 H32; try discriminate.
    cbn [option_map] in H64, H32.
    intros H. specialize (H 128 ltac:(lia)).
    rewrite H in H64.
    + congruence.
    + intros e He Hc. small_entries He;
        cbv [fst snd len List.length] in Hc; lia.
  - intros H.
    destruct (gen_structured_records (R := lcg_random) 100 42 32)
      as [[d1 rng1]| |] eqn:E1; [|vm_compute in E1; discriminate E1..].
    destruct (gen_structured_records (R := lcg_random) 100 rng1 32)
      as [[d2 rng2]| |] eqn:E2;
      [|vm_compute in E1; injection E1 as <- <-;
        vm_compute in E2; discriminate E2..].
    destruct (gen_structured_records (R := lcg_random) 100 42 (32 + 32))
      as [[d rng']| |] eqn:E; [|vm_compute in E; discriminate E..].
    specialize (H 42 32 32 d1 rng1 d2 rng2 d rng'
                  ltac:(lia) ltac:(lia) E1 E2 E).
    vm_compute in E1. injection E1 as <- <-.
    vm_compute in E2. injection E2 as <- <-.
    vm_compute in E. injection E as <- <-.
    apply (f_equal (fun l => item l 32)) in H.
    vm_compute in H. discriminate H.
  - intros H.
    destruct (gen_ascii_log (R := lcg_random) 100 42 64)
      as [[d1 rng1]| |] eqn:E1; [|vm_compute in E1; discriminate E1..].
    destruct (gen_ascii_log (R := lcg_random) 100 rng1 64)
      as [[d2 rng2]| |] eqn:E2;
      [|vm_compute in E1; injection E1 as <- <-;
        vm_compute in E2; discriminate E2..].
    destruct (gen_ascii_log (R := lcg_random) 100 42 (64 + 64))
      as [[d rng']| |] eqn:E; [|vm_compute in E; discriminate E..].
    specialize (H 42 64 64 d1 rng1 d2 rng2 d rng'
                  ltac:(lia) ltac:(lia) E1 E2 E).
    vm_compute in E1. injection E1 as <- <-.
    vm_compute in E2. injection E2 as <- <-.
    vm_compute in E. injection E as <- <-.
    apply (f_equal (fun l => item l 64)) in H.
    vm_compute in H. discriminate H.
Qed.

(** The small plan, which has a magic across a chunk boundary, is built
    and run to its full size. *)
Lemma no_plan_validation_witness :
  exists st, generate (R := lcg_random) small 400 = Done st /\
    written st = Z.max (3 * SECTION_SIZE small) (TARGET_SIZE small) /\
    len (sink st) = Z.max (3 * SECTION_SIZE small) (TARGET_SIZE small).
Proof.
  refine (proj1 (no_plan_validation small 400 small_steps_ok _ _)
            small_names_known).
  - cbn [CHUNK small]. lia.
  - cbn [SECTION_SIZE TARGET_SIZE small]. lia.
Defined.

(** The span of an entry runs over a multiple of the chunk size. *)
Definition crosses_chunk (chunk : Z) (e : Z * bytes) : Prop :=
  fst e / chunk < (fst e + len (snd e) - 1) / chunk.

(** C5 as the design states it: a plan with a magic across a chunk
    boundary, or with two magics that overlap, is refused with an error
    whatever budget the run is given. *)
Definition rejects_bad_plans : Prop :=
  forall (R : Random) (p : plan) (magic_map : list (Z * bytes)),
    build_magic_map (MAGIC_OFFSETS p) [] = Done magic_map ->
    (exists e, In e magic_map /\ crosses_chunk (CHUNK p) e) \/
    (exists e1 e2, In e1 magic_map /\ In e2 magic_map /\
                   e1 <> e2 /\ ~ apart e1 e2) ->
    forall fuel, exists err, generate p fuel = Raised err.

(** Neither kind of plan is refused.  The small plan has its ZIP magic at
    56, across the boundary at 64: the run ends with all 360 bytes written,
    the ELF magic in place at 0 and the ZIP magic left out.  The plan with
    ELF at 0 and PNG at 8 runs as well, PNG written over the tail of ELF. *)
Lemma bad_plans_run :
  ~ rejects_bad_plans /\
  match output (generate (R := lcg_random) small 100) with
  | Some out =>
      len out = 360 /\
      dict_get MAGICS "ELF" = Done (slice out 0 16) /\
      dict_get MAGICS "ZIP" <> Done (slice out 56 72)
  | None => False
  end /\
  match output (generate (R := lcg_random) overlapping 100) with
  | Some out =>
      len out = 360 /\
      dict_get MAGICS "ELF" <> Done (slice out 0 16) /\
      dict_get MAGICS "PNG" = Done (slice out 8 24)
  | None => False
  end.
Proof.
  split; [|split].
  - intros H.
    assert (Hd : output (generate (R := lcg_random) small 100) <> None)
      by (vm_compute; discriminate).
    destruct (H lcg_random small small_magic_map) with (fuel := 100%nat)
      as [err Herr].
    + vm_compute. reflexivity.
    + left. exists (56, [80; 75; 3; 4; 0; 0; 0; 0; 0; 0; 0; 0; 0; 0; 0; 0]).
      split; [vm_compute; tauto|].
      vm_compute. reflexivity.
    + rewrite Herr in Hd. now apply Hd.
  - vm_compute. split; [reflexivity|]. split; [reflexivity|]. discriminate.
  - vm_compute. split; [reflexivity|]. split; [discriminate|reflexivity].
Qed.

End Gen1gbFacts.

(** * Further properties of the two scripts *)

(** ** The splice, position by position *)

Module SpliceMore.

Import Gen1gb Splice.

Lemma item_slice_assign_in (buf data : bytes) (a i : Z) :
  0 <= a -> a + len data <= len buf ->
  a <= i < a + len data ->
  item (slice_assign buf a (a + len data) data) i = item data (i - a).
Proof.
  intros Ha Hb Hi. unfold slice_assign.
  rewrite item_app_r by (rewrite len_take; lia).
  rewrite len_take by lia.
  apply item_app_l. lia.
Qed.

(** The byte one turn of the loop leaves at position [i], given the byte
    [before] that was there: the entry's own byte when the entry fits the
    chunk of [n] bytes and covers [i], the old byte otherwise. *)
Definition turn_byte (written n i : Z) (before : option Z) (entry : Z * bytes)
    : option Z :=
  let (mo, mdata) := entry in
  let rel := mo - written in
  if (0 <=? rel) && (rel <? n) && (rel + len mdata <=? n)
     && (rel <=? i) && (i <? rel + len mdata)
  then item mdata (i - rel)
  else before.

Lemma turn_byte_hit written n i before e :
  fits written n e -> covers written e i ->
  turn_byte written n i before e = item (snd e) (i - (fst e - written)).
Proof.
  destruct e as [mo mdata]. unfold fits, covers, turn_byte. cbn [fst snd].
  intros [[H1 H2] H3] [H4 H5].
  destruct (Z.leb_spec 0 (mo - written)); [|lia].
  destruct (Z.ltb_spec (mo - written) n); [|lia].
  destruct (Z.leb_spec (mo - written + len mdata) n); [|lia].
  destruct (Z.leb_spec (mo - written) i); [|lia].
  destruct (Z.ltb_spec i (mo - written + len mdata)); [|lia].
  reflexivity.
Qed.

Lemma turn_byte_miss written n i before e :
  ~ (fits written n e /\ covers written e i) ->
  turn_byte written n i before e = before.
Proof.
  destruct e as [mo mdata]. unfold fits, covers, turn_byte. cbn [fst snd].
  intros Hn.
  destruct (Z.leb_spec 0 (mo - written)); cbn [andb]; [|reflexivity].
  destruct (Z.ltb_spec (mo - written) n); cbn [andb]; [|reflexivity].
  destruct (Z.leb_spec (mo - written + len mdata) n); cbn [andb];
    [|reflexivity].
  destruct (Z.leb_spec (mo - written) i); cbn [andb]; [|reflexivity].
  destruct (Z.ltb_spec i (mo - written + len mdata)); [|reflexivity].
  lia.
Qed.

Lemma hit_dec written n e i :
  (fits written n e /\ covers written e i) \/
  ~ (fits written n e /\ covers written e i).
Proof. unfold fits, covers. lia. Qed.

Lemma plant_one_item written chunk e i :
  0 <= i ->
  item (plant_one written chunk e) i =
  turn_byte written (len chunk) i (item chunk i) e.
Proof.
  intros Hi.
  destruct (hit_dec written (len chunk) e i) as [[Hf Hc]|Hmiss].
  - rewrite turn_byte_hit by assumption.
    rewrite plant_one_fits by assumption.
    destruct Hf as [[H1 H2] H3]. unfold covers in Hc.
    apply item_slice_assign_in; lia.
  - rewrite turn_byte_miss by assumption.
    now apply plant_one_item_out.
Qed.

(** Position [i] after the whole loop: the turns applied in dict order to
    the generated byte. *)
Lemma plant_magics_item magic_map written : forall chunk i,
  0 <= i ->
  item (plant_magics magic_map written chunk) i =
  fold_left (turn_byte written (len chunk) i) magic_map (item chunk i).
Proof.
  unfold plant_magics.
  induction magic_map as [|e mm IH]; intros chunk i Hi; [reflexivity|].
  cbn [fold_left]. rewrite IH by assumption.
  rewrite plant_one_len. now rewrite plant_one_item.
Qed.

Lemma turns_miss written n i mm : forall before,
  (forall e, In e mm -> ~ (fits written n e /\ covers written e i)) ->
  fold_left (turn_byte written n i) mm before = before.
Proof.
  induction mm as [|e mm IH]; intros before Hmiss; [reflexivity|].
  cbn [fold_left]. rewrite turn_byte_miss by (apply Hmiss; now left).
  apply IH. intros e' He'. apply Hmiss. now right.
Qed.

(** The turns either leave the byte alone or forget it. *)
Lemma turns_keep_or_forget written n i mm : forall before,
  fold_left (turn_byte written n i) mm before = before \/
  forall other,
    fold_left (turn_byte written n i) mm other =
    fold_left (turn_byte written n i) mm before.
Proof.
  induction mm as [|e mm IH]; intros before; [now left|].
  cbn [fold_left].
  destruct (hit_dec written n e i) as [[Hf Hc]|Hmiss].
  - right. intros other. now rewrite !turn_byte_hit.
  - rewrite turn_byte_miss by assumption.
    destruct (IH before) as [Hk|Hf]; [now left|right].
    intros other.
    destruct (hit_dec written n e i) as [[Hf' Hc']|_]; [tauto|].
    rewrite (turn_byte_miss written n i other e Hmiss).
    apply Hf.
Qed.

(** X1. Where magics overlap inside a chunk, the later one in dict order
    wins: a position covered by a fitting entry, and by no fitting entry
    after it in the dict, holds that entry's byte, whatever the entries
    before it wrote there. *)
Theorem splice_last_wins (before after : list (Z * bytes))
    (e : Z * bytes) (written : Z) (chunk : bytes) (i : Z) :
  fits written (len chunk) e ->
  covers written e i ->
  (forall e', In e' after ->
     ~ (fits written (len chunk) e' /\ covers written e' i)) ->
  item (plant_magics (before ++ e :: after) written chunk) i =
  item (snd e) (i - (fst e - written)).
Proof.
  intros Hf Hc Hafter.
  assert (Hi : 0 <= i) by (destruct Hf as [[? ?] ?]; unfold covers in Hc; lia).
  rewrite plant_magics_item by assumption.
  rewrite fold_left_app. cbn [fold_left].
  rewrite turn_byte_hit by assumption.
  now apply turns_miss.
Qed.

(** ELF at 0 and PNG at 8 in one chunk: byte 8 is the first byte of PNG. *)
Lemma splice_last_wins_witness :
  item (plant_magics
          ([] ++ (0, [127; 69; 76; 70; 2; 1; 1; 0; 0; 0; 0; 0; 0; 0; 0; 0])
              :: (8, [137; 80; 78; 71; 13; 10; 26; 10; 0; 0; 0; 0; 0; 0; 0; 0])
              :: []) 0 (zeros 32)) 8
  = Some 137.
Proof.
  refine (splice_last_wins
            [(0, [127; 69; 76; 70; 2; 1; 1; 0; 0; 0; 0; 0; 0; 0; 0; 0])]
            []
            (8, [137; 80; 78; 71; 13; 10; 26; 10; 0; 0; 0; 0; 0; 0; 0; 0])
            0 (zeros 32) 8 _ _ _).
  - cbv [fits fst snd len List.length zeros repeat Z.to_nat Pos.to_nat
         Pos.iter_op Nat.add]. lia.
  - cbv [covers fst snd len List.length]. lia.
  - intros e' [].
Defined.

(** X2. Splicing is idempotent: running the loop over the magics a second
    time on the same chunk changes nothing, also when magics overlap. *)
Theorem splice_idempotent (magic_map : list (Z * bytes)) (written : Z)
    (chunk : bytes) :
  plant_magics magic_map written (plant_magics magic_map written chunk) =
  plant_magics magic_map written chunk.
Proof.
  apply item_ext.
  - now rewrite !plant_magics_len.
  - intros i Hi. rewrite !plant_magics_len in *.
    rewrite (plant_magics_item magic_map written
               (plant_magics magic_map written chunk)) by lia.
    rewrite plant_magics_len.
    rewrite plant_magics_item by lia.
    destruct (turns_keep_or_forget written (len chunk) i magic_map
                (item chunk i)) as [Hk|Hf].
    + now rewrite !Hk.
    + apply Hf.
Qed.

End SpliceMore.

(** ** The log generator, line by line *)

Module LogMore.

Import Gen1gb Profiles.

(** What one turn of the loop of [gen_ascii_log] draws. *)
Record log_entry : Type := {
  stamp : Z;
  level : string;
  module_ : string;
  message : string
}.

Definition line_of (e : log_entry) : bytes :=
  log_line (stamp e) (level e) (module_ e) (message e).

(** Each stamp is 1 to 5000 above the one before it, the first above [ts]. *)
Fixpoint stamps_from (ts : Z) (entries : list log_entry) : Prop :=
  match entries with
  | [] => True
  | e :: rest => 1 <= stamp e - ts <= 5000 /\ stamps_from (stamp e) rest
  end.

Definition in_vocabulary (e : log_entry) : Prop :=
  In (level e) levels /\ In (module_ e) modules /\ In (message e) messages.

(** A printable ASCII character or a newline. *)
Definition text_byte (x : Z) : bool :=
  ((32 <=? x) && (x <? 127)) || (x =? 10).

Lemma text_bytes_app (l1 l2 : bytes) :
  forallb text_byte (l1 ++ l2) = forallb text_byte l1 && forallb text_byte l2.
Proof. apply forallb_app. Qed.

Lemma text_bytes_digits (d : Decimal.uint) :
  forallb text_byte (b (NilEmpty.string_of_uint d)) = true.
Proof.
  induction d; cbn [NilEmpty.string_of_uint]; try reflexivity;
    unfold b in *; cbn [list_ascii_of_string map forallb];
    rewrite IHd; reflexivity.
Qed.

Lemma text_bytes_str_int (n : Z) : forallb text_byte (b (str_int n)) = true.
Proof.
  unfold str_int. destruct (Z.to_int n) as [d|d];
    cbn [NilZero.string_of_int NilZero.string_of_uint].
  - destruct d; try reflexivity; apply text_bytes_digits.
  - unfold b. cbn [list_ascii_of_string map forallb].
    change (forallb text_byte (b (NilZero.string_of_uint d)) = true).
    unfold NilZero.string_of_uint.
    destruct d; try reflexivity; apply text_bytes_digits.
Qed.

Lemma vocabulary_text (e : log_entry) :
  in_vocabulary e ->
  forallb text_byte (b (pad 5 (level e))) = true /\
  forallb text_byte (b (pad 8 (module_ e))) = true /\
  forallb text_byte (b (message e)) = true.
Proof.
  intros (Hl & Hm & Hs).
  assert (H1 : forallb (fun s => forallb text_byte (b (pad 5 s))) levels = true)
    by (vm_compute; reflexivity).
  assert (H2 : forallb (fun s => forallb text_byte (b (pad 8 s))) modules = true)
    by (vm_compute; reflexivity).
  assert (H3 : forallb (fun s => forallb text_byte (b s)) messages = true)
    by (vm_compute; reflexivity).
  rewrite forallb_forall in H1, H2, H3. auto.
Qed.

Lemma line_text (e : log_entry) :
  in_vocabulary e -> forallb text_byte (line_of e) = true.
Proof.
  intros Hv. destruct (vocabulary_text e Hv) as (H1 & H2 & H3).
  unfold line_of, log_line. rewrite !text_bytes_app.
  rewrite text_bytes_str_int, H1, H2, H3. reflexivity.
Qed.

Lemma lines_text (entries : list log_entry) :
  Forall in_vocabulary entries ->
  forallb text_byte (List.concat (map line_of entries)) = true.
Proof.
  induction 1 as [|e rest He _ IH]; [reflexivity|].
  cbn [map List.concat]. rewrite text_bytes_app, IH, line_text by assumption.
  reflexivity.
Qed.

Lemma text_bytes_take (n : Z) (l : bytes) :
  forallb text_byte l = true -> forallb text_byte (take n l) = true.
Proof.
  intros H. apply forallb_forall. intros x Hx.
  rewrite forallb_forall in H. apply H.
  unfold take in Hx. rewrite <- (firstn_skipn (Z.to_nat n) l).
  apply in_or_app. now left.
Qed.

Section WithRandom.

Context {R : Random}.

Lemma choice_in (rng : rng_state) (seq : list string) :
  seq <> [] -> In (fst (choice rng seq)) seq.
Proof.
  intros Hne. unfold choice.
  assert (Hlen : 0 < len seq).
  { destruct seq; [contradiction|]. rewrite len_cons.
    pose proof (len_nonneg seq). lia. }
  pose proof (randbelow_range rng (len seq) Hlen) as Hi.
  destruct (randbelow rng (len seq)) as [i rng']. cbn [fst] in *.
  apply nth_In. unfold len in Hi. lia.
Qed.

(** What the loop has added when it is left: whole lines, stamped in
    increasing order from [ts], worded from the three vocabularies; and the
    line before the last one did not yet fill the request. *)
Lemma ascii_log_loop_lines fuel : forall rng size buf ts buf' rng',
  ascii_log_loop fuel rng size buf ts = Done (buf', rng') ->
  exists entries,
    buf' = buf ++ List.concat (map line_of entries) /\
    stamps_from ts entries /\
    Forall in_vocabulary entries /\
    forall earlier last, entries = earlier ++ [last] ->
      len (buf ++ List.concat (map line_of earlier)) < size.
Proof.
  induction fuel as [|fuel IH]; intros rng size buf ts buf' rng' H;
    [discriminate|].
  cbn [ascii_log_loop] in H.
  destruct (Z.ltb_spec (len buf) size) as [Hlt|Hge].
  - pose proof (randint_range rng 1 5000 ltac:(lia)) as Hd.
    destruct (randint rng 1 5000) as [d rng1]. cbn [fst] in Hd.
    pose proof (choice_in rng1 levels ltac:(discriminate)) as Hl.
    destruct (choice rng1 levels) as [lv rng2]. cbn [fst] in Hl.
    pose proof (choice_in rng2 modules ltac:(discriminate)) as Hm.
    destruct (choice rng2 modules) as [md rng3]. cbn [fst] in Hm.
    pose proof (choice_in rng3 messages ltac:(discriminate)) as Hs.
    destruct (choice rng3 messages) as [msg rng4]. cbn [fst] in Hs.
    apply IH in H. destruct H as (entries & Hbuf & Hst & Hv & Hlast).
    set (e := {| stamp := ts + d; level := lv; module_ := md;
                 message := msg |}).
    exists (e :: entries). split; [|split; [|split]].
    + rewrite Hbuf. cbn [map List.concat]. now rewrite <- app_assoc.
    + cbn [stamps_from]. split; [cbn [stamp e]; lia|exact Hst].
    + constructor; [|assumption]. unfold in_vocabulary. cbn. auto.
    + intros earlier last Heq.
      destruct earlier as [|e0 earlier].
      * cbn [map List.concat]. now rewrite app_nil_r.
      * cbn [app] in Heq. injection Heq as <- Heq.
        specialize (Hlast earlier last Heq).
        cbn [map List.concat]. rewrite app_assoc. exact Hlast.
  - injection H as <- <-. exists []. split; [|split; [|split]].
    + cbn [map List.concat]. now rewrite app_nil_r.
    + exact I.
    + constructor.
    + intros earlier last Heq. destruct earlier; discriminate.
Qed.

Lemma ascii_log_is_lines_aux (fuel : nat) (rng : rng_state) (size : Z)
    (data : bytes) (rng' : rng_state) :
  gen_ascii_log fuel rng size = Done (data, rng') ->
  exists entries,
    data = take size (List.concat (map line_of entries)) /\
    Forall in_vocabulary entries.
Proof.
  unfold gen_ascii_log. intros H.
  apply bind_Done in H. destruct H as [[buf rng1] [Hloop H]].
  injection H as <- <-.
  apply ascii_log_loop_lines in Hloop.
  destruct Hloop as (entries & Hbuf & _ & Hv & _).
  cbn [app] in Hbuf. subst buf. exists entries. now split.
Qed.

(** X3. The bytes [gen_ascii_log] returns are the first [size] bytes of a
    sequence of whole log lines: the stamps start 1 to 5000 above
    1700000000 and each is 1 to 5000 above the one before, level, module
    and message come from the three vocabularies, the lines together reach
    [size], and the lines before the last one do not: only the last line
    can be cut, and no line is dropped or drawn again. *)
Theorem ascii_log_is_lines (fuel : nat) (rng : rng_state) (size : Z)
    (data : bytes) (rng' : rng_state) :
  gen_ascii_log fuel rng size = Done (data, rng') ->
  exists entries,
    data = take size (List.concat (map line_of entries)) /\
    stamps_from 1700000000 entries /\
    Forall in_vocabulary entries /\
    size <= len (List.concat (map line_of entries)) /\
    forall earlier last, entries = earlier ++ [last] ->
      len (List.concat (map line_of earlier)) < size.
Proof.
  unfold gen_ascii_log. intros H.
  apply bind_Done in H. destruct H as [[buf rng1] [Hloop H]].
  injection H as <- <-.
  pose proof (ascii_log_loop_reaches _ _ _ _ _ _ _ Hloop) as Hreach.
  apply ascii_log_loop_lines in Hloop.
  destruct Hloop as (entries & Hbuf & Hst & Hv & Hlast).
  cbn [app] in Hbuf, Hlast. subst buf.
  exists entries. repeat split; assumption.
Qed.

(** X4. Every byte [gen_ascii_log] returns is a printable ASCII character
    or a newline. *)
Theorem ascii_log_is_text (fuel : nat) (rng : rng_state) (size : Z)
    (data : bytes) (rng' : rng_state) :
  gen_ascii_log fuel rng size = Done (data, rng') ->
  Forall (fun x => 32 <= x < 127 \/ x = 10) data.
Proof.
  intros H.
  destruct (ascii_log_is_lines_aux fuel rng size data rng' H)
    as (entries & -> & Hv).
  apply Forall_forall. intros x Hx.
  pose proof (text_bytes_take size _ (lines_text entries Hv)) as Ht.
  rewrite forallb_forall in Ht. specialize (Ht x Hx).
  unfold text_byte in Ht.
  apply orb_true_iff in Ht. destruct Ht as [Ht|Ht].
  - apply andb_true_iff in Ht. destruct Ht as [H1 H2].
    apply Z.leb_le in H1. apply Z.ltb_lt in H2. left. lia.
  - apply Z.eqb_eq in Ht. now right.
Qed.

End WithRandom.

(** A hundred bytes of log text from the concrete generator. *)
Lemma ascii_log_is_lines_witness :
  match gen_ascii_log (R := lcg_random) 100 42 100 with
  | Done (data, _) =>
      exists entries,
        data = take 100 (List.concat (map line_of entries)) /\
        stamps_from 1700000000 entries /\
        Forall in_vocabulary entries
  | _ => False
  end.
Proof.
  destruct (gen_ascii_log (R := lcg_random) 100 42 100)
    as [[data rng']| |] eqn:E; [|vm_compute in E; discriminate E..].
  destruct (ascii_log_is_lines _ _ _ data rng' E)
    as (entries & H1 & H2 & H3 & _).
  exists entries. auto.
Defined.

Lemma ascii_log_is_text_witness :
  match gen_ascii_log (R := lcg_random) 100 42 100 with
  | Done (data, _) => Forall (fun x => 32 <= x < 127 \/ x = 10) data
  | _ => False
  end.
Proof.
  destruct (gen_ascii_log (R := lcg_random) 100 42 100)
    as [[data rng']| |] eqn:E; [|vm_compute in E; discriminate E..].
  pose proof (ascii_log_is_text _ _ _ data rng' E) as H.
  exact H.
Defined.

End LogMore.

(** ** Requests of different sizes *)

Module RequestMore.

Import Gen1gb Profiles Gen1gbFacts.

Lemma take_take {A} (n m : Z) (l : list A) :
  n <= m -> take n (take m l) = take n l.
Proof.
  intros H. unfold take. rewrite firstn_firstn. f_equal. lia.
Qed.

Section WithRandom.

Context {R : Random}.

Lemma records_loop_grows fuel : forall rng size buf rec_id buf' rng',
  records_loop fuel rng size buf rec_id = Done (buf', rng') ->
  exists rest, buf' = buf ++ rest.
Proof.
  induction fuel as [|fuel IH]; intros rng size buf rec_id buf' rng' H;
    [discriminate|].
  cbn [records_loop] in H.
  destruct (len buf <? size).
  - destruct (randint rng 0 50) as [jitter rng1].
    destruct (randint rng1 0 1000000) as [val rng2].
    destruct (draw_bytes 16 rng2) as [ints rng3].
    apply bind_Done in H. destruct H as [payload [_ H]].
    apply bind_Done in H. destruct H as [packed [_ H]].
    apply IH in H. destruct H as [rest ->].
    eexists. now rewrite <- app_assoc.
  - injection H as <- <-. exists []. now rewrite app_nil_r.
Qed.

(** A larger request makes the loop run on from where the smaller one
    stopped. *)
Lemma ascii_log_loop_prefix fuel1 :
  forall fuel2 rng size1 size2 buf ts b1 r1 b2 r2,
  size1 <= size2 ->
  ascii_log_loop fuel1 rng size1 buf ts = Done (b1, r1) ->
  ascii_log_loop fuel2 rng size2 buf ts = Done (b2, r2) ->
  exists rest, b2 = b1 ++ rest.
Proof.
  induction fuel1 as [|fuel1 IH];
    intros fuel2 rng size1 size2 buf ts b1 r1 b2 r2 Hle H1 H2;
    [discriminate|].
  cbn [ascii_log_loop] in H1.
  destruct (Z.ltb_spec (len buf) size1) as [Hlt|Hge].
  - destruct fuel2 as [|fuel2]; [discriminate|].
    cbn [ascii_log_loop] in H2.
    destruct (Z.ltb_spec (len buf) size2); [|lia].
    destruct (randint rng 1 5000) as [d rng1].
    destruct (choice rng1 levels) as [lv rng2].
    destruct (choice rng2 modules) as [md rng3].
    destruct (choice rng3 messages) as [msg rng4].
    exact (IH _ _ _ _ _ _ _ _ _ _ Hle H1 H2).
  - injection H1 as <- <-.
    exact (ascii_log_loop_grows _ _ _ _ _ _ _ H2).
Qed.

Lemma records_loop_prefix fuel1 :
  forall fuel2 rng size1 size2 buf rec_id b1 r1 b2 r2,
  size1 <= size2 ->
  records_loop fuel1 rng size1 buf rec_id = Done (b1, r1) ->
  records_loop fuel2 rng size2 buf rec_id = Done (b2, r2) ->
  exists rest, b2 = b1 ++ rest.
Proof.
  induction fuel1 as [|fuel1 IH];
    intros fuel2 rng size1 size2 buf rec_id b1 r1 b2 r2 Hle H1 H2;
    [discriminate|].
  cbn [records_loop] in H1.
  destruct (Z.ltb_spec (len buf) size1) as [Hlt|Hge].
  - destruct fuel2 as [|fuel2]; [discriminate|].
    cbn [records_loop] in H2.
    destruct (Z.ltb_spec (len buf) size2); [|lia].
    destruct (randint rng 0 50) as [jitter rng1].
    destruct (randint rng1 0 1000000) as [val rng2].
    destruct (draw_bytes 16 rng2) as [ints rng3].
    destruct (bytes_of_ints ints) as [payload| |]; cbn [bind] in H1, H2;
      [|discriminate..].
    destruct (struct_pack _) as [packed| |]; cbn [bind] in H1, H2;
      [|discriminate..].
    exact (IH _ _ _ _ _ _ _ _ _ _ Hle H1 H2).
  - injection H1 as <- <-.
    exact (records_loop_grows _ _ _ _ _ _ _ H2).
Qed.

Lemma take_prefix (size1 size2 : Z) (b1 rest : bytes) :
  0 <= size1 <= size2 -> size1 <= len b1 ->
  take size1 b1 = take size1 (take size2 (b1 ++ rest)).
Proof.
  intros H Hlen. rewrite take_take by lia.
  symmetry. apply take_app_l. lia.
Qed.

(** X5. Asking a generator for more bytes only appends: from the same
    generator state, the bytes of a request of [size1] are the first
    [size1] bytes of any larger request.  This holds for the log text, for
    the records and for the zeros. *)
Theorem request_is_prefix (fuel1 fuel2 : nat) (rng : rng_state)
    (size1 size2 : Z) :
  0 <= size1 <= size2 ->
  (forall d1 r1 d2 r2,
     gen_ascii_log fuel1 rng size1 = Done (d1, r1) ->
     gen_ascii_log fuel2 rng size2 = Done (d2, r2) ->
     d1 = take size1 d2) /\
  (forall d1 r1 d2 r2,
     gen_structured_records fuel1 rng size1 = Done (d1, r1) ->
     gen_structured_records fuel2 rng size2 = Done (d2, r2) ->
     d1 = take size1 d2) /\
  gen_zeros size1 = take size1 (gen_zeros size2).
Proof.
  intros Hs. split; [|split].
  - unfold gen_ascii_log. intros d1 r1 d2 r2 H1 H2.
    apply bind_Done in H1. destruct H1 as [[b1 q1] [L1 H1]].
    apply bind_Done in H2. destruct H2 as [[b2 q2] [L2 H2]].
    injection H1 as <- <-. injection H2 as <- <-.
    pose proof (ascii_log_loop_reaches _ _ _ _ _ _ _ L1) as Hreach.
    destruct (ascii_log_loop_prefix _ _ _ _ _ _ _ _ _ _ _
                (proj2 Hs) L1 L2) as [rest ->].
    now apply take_prefix.
  - unfold gen_structured_records. intros d1 r1 d2 r2 H1 H2.
    apply bind_Done in H1. destruct H1 as [[b1 q1] [L1 H1]].
    apply bind_Done in H2. destruct H2 as [[b2 q2] [L2 H2]].
    injection H1 as <- <-. injection H2 as <- <-.
    pose proof L1 as Hinv.
    apply records_loop_inv in Hinv; [|lia|reflexivity|intros; lia].
    destruct Hinv as [Hreach _].
    destruct (records_loop_prefix _ _ _ _ _ _ _ _ _ _ _
                (proj2 Hs) L1 L2) as [rest ->].
    now apply take_prefix.
  - replace size2 with (size1 + (size2 - size1)) by lia.
    rewrite <- gen_zeros_app by lia.
    rewrite take_app_l by (rewrite gen_zeros_len; lia).
    rewrite <- (gen_zeros_len size1) at 2 by lia.
    symmetry. apply take_all.
Qed.

(** While whole records are in the buffer, a request that ends inside
    record [m] runs the loop exactly as a request for [m] whole records. *)
Lemma records_loop_rounds_up fuel : forall rng size m buf rec_id,
  len buf = 32 * rec_id ->
  32 * (m - 1) < size <= 32 * m ->
  records_loop fuel rng size buf rec_id =
  records_loop fuel rng (32 * m) buf rec_id.
Proof.
  induction fuel as [|fuel IH]; intros rng size m buf rec_id Hlen Hm;
    [reflexivity|].
  cbn [records_loop].
  destruct (Z.ltb_spec (len buf) size) as [Hlt|Hge];
    destruct (Z.ltb_spec (len buf) (32 * m)) as [Hlt'|Hge'];
    try lia; [|reflexivity].
  destruct (randint rng 0 50) as [jitter rng1].
  destruct (randint rng1 0 1000000) as [val rng2].
  pose proof (draw_bytes_spec 16 rng2) as [Hplen _].
  destruct (draw_bytes 16 rng2) as [ints rng3]. cbn [fst] in Hplen.
  destruct (bytes_of_ints ints) as [payload| |] eqn:Hpay; cbn [bind];
    [|reflexivity..].
  apply bytes_of_ints_inv in Hpay. subst payload.
  destruct (struct_pack _) as [packed| |] eqn:Hpack; cbn [bind];
    [|reflexivity..].
  apply struct_pack_IqI_inv in Hpack. destruct Hpack as (_ & _ & _ & ->).
  apply IH; [|assumption].
  rewrite !len_app, !le_bytes_len. unfold len at 2 3.
  rewrite Hplen. cbn [List.length]. lia.
Qed.

(** X6. A record that is cut off has been drawn in full.  A request that
    ends inside record [m] returns the first [size] bytes of the request
    for [m] whole records and leaves the generator in the very state that
    request leaves it in: the bytes that are cut are lost, the randomness
    behind them is spent. *)
Theorem cut_record_is_drawn (fuel : nat) (rng : rng_state) (size m : Z)
    (whole : bytes) (rng' : rng_state) :
  32 * (m - 1) < size <= 32 * m ->
  gen_structured_records fuel rng (32 * m) = Done (whole, rng') ->
  gen_structured_records fuel rng size = Done (take size whole, rng').
Proof.
  unfold gen_structured_records. intros Hm H.
  rewrite (records_loop_rounds_up fuel rng size m [] 0)
    by (try reflexivity; assumption).
  apply bind_Done in H. destruct H as [[buf r1] [Hloop H]].
  assert (Hw : take (32 * m) buf = whole) by congruence.
  assert (Hr : r1 = rng') by congruence.
  subst whole rng'. rewrite Hloop. cbn [bind].
  now rewrite take_take by lia.
Qed.

Lemma record_value_field (X : bytes) (a r ts val : Z) (payload : bytes) :
  0 <= a -> a + 32 <= len X ->
  slice X a (a + 32) =
    le_bytes 4 r ++ le_bytes 8 ts ++ le_bytes 4 val ++ payload ->
  slice X (a + 12) (a + 16) = le_bytes 4 val /\
  slice X (a + 16) (a + 32) = payload.
Proof.
  intros Ha Hlen H.
  assert (Hpl : len payload = 16).
  { apply (f_equal len) in H. rewrite len_slice in H by lia.
    rewrite !len_app, !le_bytes_len in H. lia. }
  split.
  - rewrite <- (slice_slice X a (a + 32)) by lia.
    rewrite H.
    rewrite (app_assoc (le_bytes 4 r)).
    change 12 with (len (le_bytes 4 r ++ le_bytes 8 ts)) at 1.
    change 16 with (len (le_bytes 4 r ++ le_bytes 8 ts) + len (le_bytes 4 val)).
    apply slice_mid.
  - rewrite <- (slice_slice X a (a + 32)) by lia.
    rewrite H.
    rewrite (app_assoc (le_bytes 4 r)), (app_assoc _ (le_bytes 4 val)).
    change 16 with
      (len ((le_bytes 4 r ++ le_bytes 8 ts) ++ le_bytes 4 val) + 0) at 1.
    replace 32 with
      (len ((le_bytes 4 r ++ le_bytes 8 ts) ++ le_bytes 4 val) + len payload)
      by (rewrite Hpl; reflexivity).
    rewrite slice_app_r by lia. apply slice_all.
Qed.

(** X7. In the bytes of one call of [gen_structured_records], the value
    field of every complete record decodes to an integer from 0 to
    1000000, and the timestamp of a complete record is 50 to 150 above the
    timestamp of the record before it: timestamps strictly increase. *)
Theorem record_values_and_stamps (fuel : nat) (rng : rng_state) (size : Z)
    (data : bytes) (rng' : rng_state) :
  gen_structured_records fuel rng size = Done (data, rng') ->
  forall r, 0 <= r -> 32 * r + 32 <= size ->
    0 <= le_decode (slice data (32 * r + 12) (32 * r + 16)) <= 1000000 /\
    (32 * (r + 1) + 32 <= size ->
     50 <= le_decode (slice data (32 * (r + 1) + 4) (32 * (r + 1) + 12))
           - le_decode (slice data (32 * r + 4) (32 * r + 12)) <= 150).
Proof.
  intros Hg r Hr Hsize.
  pose proof (gen_structured_records_len _ _ _ _ _ Hg ltac:(lia)) as Hlen.
  destruct (gen_structured_records_record _ _ _ _ _ r Hg Hr Hsize)
    as (j & val & payload & Hj & Hv & Hp & Hr32 & Hrec).
  pose proof (record_value_field data (32 * r) _ _ _ _
                ltac:(lia) ltac:(lia) Hrec) as [Hval _].
  pose proof (record_fields data (32 * r) _ _ _ _
                ltac:(lia) ltac:(lia) Hrec) as [_ Hts].
  split.
  - rewrite Hval, (le_decode_le_bytes 4 val)
      by (change (256 ^ Z.of_nat 4) with (2 ^ 32); lia).
    assumption.
  - intros Hnext.
    destruct (gen_structured_records_record _ _ _ _ _ (r + 1) Hg
                ltac:(lia) Hnext)
      as (j' & val' & payload' & Hj' & _ & _ & Hr32' & Hrec').
    pose proof (record_fields data (32 * (r + 1)) _ _ _ _
                  ltac:(lia) ltac:(lia) Hrec') as [_ Hts'].
    replace (32 * r + 4 + 8) with (32 * r + 12) in Hts by lia.
    replace (32 * (r + 1) + 4 + 8) with (32 * (r + 1) + 12) in Hts' by lia.
    rewrite Hts, Hts'.
    rewrite !(le_decode_le_bytes 8)
      by (change (256 ^ Z.of_nat 8) with (2 ^ 64); lia).
    lia.
Qed.

(** Past 2^32 records the id no longer fits its field. *)
Lemma records_loop_overflows fuel : forall rng size buf rec_id,
  0 <= rec_id <= 2 ^ 32 -> len buf = 32 * rec_id ->
  2 ^ 37 < size ->
  2 ^ 32 - rec_id < Z.of_nat fuel ->
  records_loop fuel rng size buf rec_id = Raised StructError.
Proof.
  induction fuel as [|fuel IH]; intros rng size buf rec_id Hid Hlen Hsize Hfuel;
    [lia|].
  cbn [records_loop].
  destruct (Z.ltb_spec (len buf) size) as [_|Hge]; [|lia].
  pose proof (randint_range rng 0 50 ltac:(lia)) as Hj.
  destruct (randint rng 0 50) as [jitter rng1]. cbn [fst] in Hj.
  pose proof (randint_range rng1 0 1000000 ltac:(lia)) as Hv.
  destruct (randint rng1 0 1000000) as [val rng2]. cbn [fst] in Hv.
  pose proof (draw_bytes_spec 16 rng2) as [Hplen Hprange].
  destruct (draw_bytes 16 rng2) as [ints rng3]. cbn [fst] in Hplen, Hprange.
  rewrite (bytes_of_ints_ok _ Hprange). cbn [bind].
  destruct (Z.eq_dec rec_id (2 ^ 32)) as [->|Hne].
  - reflexivity.
  - rewrite struct_pack_IqI by lia. cbn [bind].
    apply IH; [lia| |assumption|lia].
    rewrite !len_app, !le_bytes_len. unfold len at 2 3.
    rewrite Hplen. cbn [List.length]. lia.
Qed.

(** X8. A request for more than 2^37 bytes of records does not return: the
    loop reaches record 2^32, whose id does not fit the 4-byte field, and
    [struct.pack] raises. *)
Theorem records_id_overflow (fuel : nat) (rng : rng_state) (size : Z) :
  2 ^ 37 < size -> 2 ^ 32 < Z.of_nat fuel ->
  gen_structured_records fuel rng size = Raised StructError.
Proof.
  intros Hsize Hfuel. unfold gen_structured_records.
  rewrite records_loop_overflows; [reflexivity|lia|reflexivity|assumption|lia].
Qed.

End WithRandom.

(** Forty bytes of records are the first forty of a hundred. *)
Lemma request_is_prefix_witness :
  match gen_structured_records (R := lcg_random) 100 42 40,
        gen_structured_records (R := lcg_random) 100 42 100 with
  | Done (d1, _), Done (d2, _) => d1 = take 40 d2
  | _, _ => False
  end.
Proof.
  destruct (gen_structured_records (R := lcg_random) 100 42 40)
    as [[d1 r1]| |] eqn:E1; [|vm_compute in E1; discriminate E1..].
  destruct (gen_structured_records (R := lcg_random) 100 42 100)
    as [[d2 r2]| |] eqn:E2; [|vm_compute in E2; discriminate E2..].
  pose proof (proj1 (proj2 (request_is_prefix (R := lcg_random)
                              100 100 42 40 100 ltac:(lia)))
                d1 r1 d2 r2 E1 E2) as H.
  exact H.
Defined.

(** Forty bytes of records leave the generator where sixty-four do. *)
Lemma cut_record_is_drawn_witness :
  match gen_structured_records (R := lcg_random) 100 42 (32 * 2) with
  | Done (whole, rng') =>
      gen_structured_records (R := lcg_random) 100 42 40
      = Done (take 40 whole, rng')
  | _ => False
  end.
Proof.
  destruct (gen_structured_records (R := lcg_random) 100 42 (32 * 2))
    as [[whole rng']| |] eqn:E; [|vm_compute in E; discriminate E..].
  pose proof (cut_record_is_drawn (R := lcg_random) 100 42 40 2 whole rng'
                ltac:(lia) E) as H.
  exact H.
Defined.

(** The two records of a 64-byte request. *)
Lemma record_values_and_stamps_witness :
  match gen_structured_records (R := lcg_random) 100 42 64 with
  | Done (data, _) =>
      0 <= le_decode (slice data (32 * 0 + 12) (32 * 0 + 16)) <= 1000000 /\
      50 <= le_decode (slice data (32 * (0 + 1) + 4) (32 * (0 + 1) + 12))
            - le_decode (slice data (32 * 0 + 4) (32 * 0 + 12)) <= 150
  | _ => False
  end.
Proof.
  destruct (gen_structured_records (R := lcg_random) 100 42 64)
    as [[data rng']| |] eqn:E; [|vm_compute in E; discriminate E..].
  pose proof (record_values_and_stamps (R := lcg_random) 100 42 64 data rng'
                E 0 ltac:(lia) ltac:(lia)) as [H1 H2].
  split; [exact H1|]. apply H2. lia.
Defined.

(** One byte more than 2^37, with a budget of one turn more than 2^32. *)
Lemma records_id_overflow_witness :
  gen_structured_records (R := lcg_random)
    (Z.to_nat (2 ^ 32 + 1)) 42 (2 ^ 37 + 1)
  = Raised StructError.
Proof.
  apply (records_id_overflow (R := lcg_random)); lia.
Defined.

End RequestMore.

(** ** The dict of magics *)

Module DictMore.

Import Gen1gb.

(** [d.get(key)] on a dict with integer keys. *)
Fixpoint dict_find {V} (d : list (Z * V)) (key : Z) : option V :=
  match d with
  | [] => None
  | (k, v) :: d' => if k =? key then Some v else dict_find d' key
  end.

Lemma dict_find_set {V} (d : list (Z * V)) (key : Z) (v : V) (k' : Z) :
  dict_find (dict_set d key v) k' =
  if key =? k' then Some v else dict_find d k'.
Proof.
  induction d as [|[k w] d IH]; cbn [dict_set dict_find].
  - reflexivity.
  - destruct (Z.eqb_spec k key) as [->|Hne]; cbn [dict_find].
    + destruct (Z.eqb_spec key k'); reflexivity.
    + rewrite IH. destruct (Z.eqb_spec k k') as [->|Hk]; [|reflexivity].
      destruct (Z.eqb_spec key k'); [congruence|reflexivity].
Qed.

Lemma dict_set_keys {V} (d : list (Z * V)) (key : Z) (v : V) (k' : Z) :
  In k' (map fst (dict_set d key v)) <-> k' = key \/ In k' (map fst d).
Proof.
  induction d as [|[k w] d IH]; cbn [dict_set map fst In].
  - intuition.
  - destruct (Z.eqb_spec k key) as [->|Hne]; cbn [map fst In].
    + intuition.
    + rewrite IH. intuition.
Qed.

Lemma dict_set_nodup {V} (d : list (Z * V)) (key : Z) (v : V) :
  NoDup (map fst d) -> NoDup (map fst (dict_set d key v)).
Proof.
  induction d as [|[k w] d IH]; cbn [dict_set map fst]; intros Hnd.
  - constructor; [intros []|constructor].
  - inversion Hnd as [|? ? Hnotin Hrest]; subst.
    destruct (Z.eqb_spec k key) as [->|Hne]; cbn [map fst].
    + now constructor.
    + constructor; [|now apply IH].
      rewrite dict_set_keys. intros [Heq|Hin]; [congruence|contradiction].
Qed.

Lemma dict_find_in {V} (d : list (Z * V)) (key : Z) (v : V) :
  dict_find d key = Some v -> In (key, v) d.
Proof.
  induction d as [|[k w] d IH]; cbn [dict_find]; [discriminate|].
  destruct (Z.eqb_spec k key) as [->|Hne].
  - intros [= ->]. now left.
  - intros H. right. now apply IH.
Qed.

Lemma dict_find_none {V} (d : list (Z * V)) (key : Z) :
  ~ In key (map fst d) -> dict_find d key = None.
Proof.
  induction d as [|[k w] d IH]; cbn [dict_find map fst In]; [reflexivity|].
  intros Hn. destruct (Z.eqb_spec k key) as [->|Hne]; [tauto|].
  apply IH. tauto.
Qed.

(** The loop over [MAGIC_OFFSETS], from any dict built so far. *)
Lemma build_magic_map_inv offsets : forall d magic_map,
  build_magic_map offsets d = Done magic_map ->
  (NoDup (map fst d) -> NoDup (map fst magic_map)) /\
  (forall o, In o (map fst magic_map) <->
             In o (map fst offsets) \/ In o (map fst d)) /\
  (forall o, ~ In o (map fst offsets) ->
             dict_find magic_map o = dict_find d o) /\
  (forall before o name after,
     offsets = before ++ (o, name) :: after ->
     ~ In o (map fst after) ->
     exists pattern, dict_get MAGICS name = Done pattern /\
                     dict_find magic_map o = Some pattern).
Proof.
  induction offsets as [|[offset name] rest IH]; intros d mm H;
    cbn [build_magic_map] in H.
  - injection H as <-. repeat split.
    + auto.
    + intros Hin. now right.
    + intros [[]|Hin]. assumption.
    + intros before o name after Heq. destruct before; discriminate.
  - destruct (dict_get MAGICS name) as [mdata| |] eqn:Hget; cbn [bind] in H;
      [|discriminate..].
    apply IH in H. destruct H as (Hnd & Hkeys & Hother & Hlast).
    split; [|split; [|split]].
    + intros Hd. apply Hnd. now apply dict_set_nodup.
    + intros o. rewrite Hkeys, dict_set_keys. cbn [map fst In]. intuition.
    + intros o Hn. cbn [map fst In] in Hn.
      rewrite Hother by tauto. rewrite dict_find_set.
      destruct (Z.eqb_spec offset o); [tauto|reflexivity].
    + intros before o name' after Heq Hafter.
      destruct before as [|e before]; cbn [app] in Heq.
      * injection Heq as Ho Hname Hrest. subst o name' after.
        exists mdata. split; [assumption|].
        rewrite Hother by assumption. rewrite dict_find_set.
        now rewrite Z.eqb_refl.
      * injection Heq as He Hrest. subst e rest.
        now apply (Hlast before o name' after).
Qed.

(** X9. The dict that [main] builds from [MAGIC_OFFSETS] has one entry for
    each distinct offset of the list and no other.  When an offset occurs
    more than once, the entry holds the pattern of its last occurrence:
    the earlier ones are silently replaced. *)
Theorem magic_map_last_wins (offsets : list (Z * string))
    (magic_map : list (Z * bytes)) :
  build_magic_map offsets [] = Done magic_map ->
  NoDup (map fst magic_map) /\
  (forall o, In o (map fst magic_map) <-> In o (map fst offsets)) /\
  (forall before o name after,
     offsets = before ++ (o, name) :: after ->
     ~ In o (map fst after) ->
     exists pattern, dict_get MAGICS name = Done pattern /\
                     In (o, pattern) magic_map).
Proof.
  intros H. apply build_magic_map_inv in H.
  destruct H as (Hnd & Hkeys & _ & Hlast).
  split; [apply Hnd; constructor|]. split.
  - intros o. rewrite Hkeys. cbn [map In]. tauto.
  - intros before o name after Heq Hafter.
    destruct (Hlast before o name after Heq Hafter) as (pat & Hget & Hfind).
    exists pat. split; [assumption|]. now apply dict_find_in.
Qed.

(** ELF, then PNG, then ZIP again at the offset of ELF: the dict holds ZIP
    at 0. *)
Lemma magic_map_last_wins_witness :
  exists pattern,
    dict_get MAGICS "ZIP" = Done pattern /\
    In (0, pattern)
       [ (0, [80; 75; 3; 4; 0; 0; 0; 0; 0; 0; 0; 0; 0; 0; 0; 0]);
         (8, [137; 80; 78; 71; 13; 10; 26; 10; 0; 0; 0; 0; 0; 0; 0; 0]) ].
Proof.
  refine (proj2 (proj2 (magic_map_last_wins
            [(0, "ELF"%string); (8, "PNG"%string); (0, "ZIP"%string)] _ _))
            [(0, "ELF"%string); (8, "PNG"%string)] 0 "ZIP"%string [] _ _).
  - vm_compute. reflexivity.
  - reflexivity.
  - intros [].
Defined.

End DictMore.

(** ** A run with and without its magics *)

Module RunMore.

Import Gen1gb Splice Profiles Writer Gen1gbFacts.

(** The plan with its list of magics emptied. *)
Definition without_magics (p : plan) : plan := {|
  TARGET_SIZE := TARGET_SIZE p;
  MAGIC_OFFSETS := [];
  SECTION_SIZE := SECTION_SIZE p;
  CHUNK := CHUNK p;
  block_size := block_size p
|}.

(** Two files of one length that hold the same byte wherever no entry of
    the dict has its span. *)
Definition agree_outside (magic_map : list (Z * bytes)) (out out0 : bytes)
    : Prop :=
  len out = len out0 /\
  forall i, 0 <= i ->
    (forall e, In e magic_map -> ~ (fst e <= i < fst e + len (snd e))) ->
    item out i = item out0 i.

Section WithRandom.

Context {R : Random}.

Lemma chunk_loop_without gen magic_map bound step :
  0 < step ->
  (forall idx rng size data rng',
     gen idx rng size = Done (data, rng') -> 0 <= size -> len data = size) ->
  forall fuel st st0 section_written block_idx st',
  rng st = rng st0 -> written st = written st0 ->
  len (sink st) = written st ->
  agree_outside magic_map (sink st) (sink st0) ->
  chunk_loop gen magic_map bound step fuel st section_written block_idx
    = Done st' ->
  exists st0',
    chunk_loop gen [] bound step fuel st0 section_written block_idx
      = Done st0' /\
    rng st' = rng st0' /\ written st' = written st0' /\
    len (sink st') = written st' /\
    agree_outside magic_map (sink st') (sink st0').
Proof.
  intros Hstep Hgen.
  induction fuel as [|fuel IH];
    intros st st0 sw idx st' Hrng Hw Hlen Hag H; [discriminate|].
  cbn [chunk_loop] in *.
  destruct (Z.ltb_spec sw bound) as [Hlt|Hge].
  - apply bind_Done in H. destruct H as [[data rng1] [Hg H]].
    rewrite <- Hrng, Hg. cbn [bind].
    pose proof (Hgen _ _ _ _ _ Hg ltac:(lia)) as Hdata.
    eapply IH; cycle 4; [exact H|reflexivity|cbn [written]; lia| |].
    + cbn [sink written]. rewrite len_app, plant_magics_len. lia.
    + cbn [sink]. destruct Hag as [Hl Hitems]. split.
      * rewrite !len_app, plant_magics_len. cbn [plant_magics fold_left]. lia.
      * intros i Hi Hout.
        destruct (Z_lt_ge_dec i (len (sink st))) as [Hin|Hpast].
        -- rewrite !item_app_l by lia. now apply Hitems.
        -- rewrite !item_app_r by lia. rewrite <- Hl.
           cbn [plant_magics fold_left].
           apply plant_magics_frame; [lia|].
           intros e He Hf Hc. apply (Hout e He).
           unfold covers in Hc. lia.
  - injection H as <-. exists st0. auto.
Qed.

(** X10. The magics perturb nothing around them.  A run that ends also
    ends on the plan without magics, in the same generator state and with
    a file of the same length; and the two files hold the same byte at
    every position outside the spans of the magics. *)
Theorem magics_perturb_nothing (p : plan) (fuel : nat) (st : wstate) :
  steps_ok p ->
  generate p fuel = Done st ->
  exists magic_map st0,
    build_magic_map (MAGIC_OFFSETS p) [] = Done magic_map /\
    generate (without_magics p) fuel = Done st0 /\
    rng st = rng st0 /\
    agree_outside magic_map (sink st) (sink st0).
Proof.
  intros (HC & HB & HS) H. apply generate_sections in H.
  destruct H as (mm & st1 & st2 & st3 & Hmm & H1 & H2 & H3 & H4).
  exists mm.
  destruct (chunk_loop_without (fun _ => gen_ascii_log fuel) mm
              (SECTION_SIZE p) (CHUNK p) HC
              ltac:(intros ? ? ? ? ?; apply gen_ascii_log_len)
              fuel _ {| rng := Random_seed 42; written := 0; sink := [] |}
              0 0 st1 eq_refl eq_refl eq_refl
              ltac:(split; [reflexivity|reflexivity]) H1)
    as (s1 & G1 & R1 & W1 & L1 & A1).
  destruct (chunk_loop_without (fun _ => gen_structured_records fuel) mm
              (SECTION_SIZE p) (CHUNK p) HC
              ltac:(intros ? ? ? ? ?; apply gen_structured_records_len)
              fuel st1 s1 0 0 st2 R1 W1 L1 A1 H2)
    as (s2 & G2 & R2 & W2 & L2 & A2).
  destruct (chunk_loop_without (fun _ => gen_random_data) mm
              (SECTION_SIZE p) (CHUNK p) HC
              ltac:(intros ? ? ? ? ?; apply gen_random_data_len)
              fuel st2 s2 0 0 st3 R2 W2 L2 A2 H3)
    as (s3 & G3 & R3 & W3 & L3 & A3).
  destruct (chunk_loop_without gen_mixed mm
              (TARGET_SIZE p - written st3) (block_size p) HB gen_mixed_len
              fuel st3 s3 0 0 st R3 W3 L3 A3 H4)
    as (s4 & G4 & R4 & W4 & L4 & A4).
  exists s4. split; [assumption|]. split; [|split; assumption].
  apply generate_sections. exists [], s1, s2, s3.
  split; [reflexivity|]. unfold sections.
  cbn [SECTION_SIZE CHUNK TARGET_SIZE block_size without_magics].
  rewrite <- W3. auto.
Qed.

End WithRandom.

(** Byte 200 of the small file, outside its four magics, is byte 200 of the
    file of the same plan without magics. *)
Lemma magics_perturb_nothing_witness :
  match output (generate (R := lcg_random) small 100),
        output (generate (R := lcg_random) (without_magics small) 100) with
  | Some out, Some out0 => item out 200 = item out0 200
  | _, _ => False
  end.
Proof.
  run_ends (generate (R := lcg_random) small 100) st E.
  destruct (magics_perturb_nothing small 100 st small_steps_ok E)
    as (mm & st0 & Hmm & E0 & _ & _ & Hitems).
  rewrite E0. cbn [output]. apply Hitems; [lia|].
  assert (Hmap : Done mm = Done (A := list (Z * bytes)) small_magic_map)
    by (rewrite <- Hmm; vm_compute; reflexivity).
  injection Hmap as ->.
  intros e He Hc. small_entries He;
    cbv [fst snd len List.length] in Hc; lia.
Defined.

End RunMore.

(** ** The loops of [generate_sample.py] on any input *)

Module SampleMore.

Import Sample SampleFacts.

Definition is_byte (x : Z) : bool := (0 <=? x) && (x <? 256).

Lemma lcg_byte_range seed : 0 <= lcg_byte seed < 256.
Proof.
  rewrite lcg_byte_mod. unfold spec_lcg_byte.
  apply Z.mod_pos_bound. reflexivity.
Qed.

Lemma lcg_next_range seed : 0 <= lcg_next seed < 2 ^ 32.
Proof.
  rewrite lcg_next_mod. unfold spec_lcg_next.
  apply Z.mod_pos_bound. reflexivity.
Qed.

Lemma lcg_run_inv n : forall seed acc,
  Forall (fun x => 0 <= x < 256) acc ->
  List.length (fst (lcg_run n seed acc)) = (List.length acc + n)%nat /\
  Forall (fun x => 0 <= x < 256) (fst (lcg_run n seed acc)) /\
  ((0 < n)%nat -> 0 <= snd (lcg_run n seed acc) < 2 ^ 32).
Proof.
  induction n as [|n IH]; intros seed acc Hacc; cbn [lcg_run fst snd].
  - split; [lia|]. split; [assumption|lia].
  - destruct (IH (lcg_next seed) (acc ++ [lcg_byte (lcg_next seed)]))
      as (Hl & Hr & Hs).
    { apply Forall_app. split; [assumption|].
      constructor; [apply lcg_byte_range|constructor]. }
    rewrite length_app in Hl. cbn [List.length] in Hl.
    split; [lia|]. split; [assumption|]. intros _.
    destruct n as [|n]; [cbn [lcg_run snd]; apply lcg_next_range|].
    apply Hs. lia.
Qed.

(** X11. For every seed, negative ones included, and every count [n], the
    loop of the high-entropy section yields exactly [n] integers, each in
    [range(256)], so [bytes(random_data)] cannot raise; and once the loop
    has run the seed lies in [0, 2^32). *)
Theorem lcg_run_bytes (n : nat) (seed : Z) :
  len (fst (lcg_run n seed [])) = Z.of_nat n /\
  Forall (fun x => 0 <= x < 256) (fst (lcg_run n seed [])) /\
  bytes_of_ints (fst (lcg_run n seed [])) = Done (fst (lcg_run n seed [])) /\
  ((0 < n)%nat -> 0 <= snd (lcg_run n seed []) < 2 ^ 32).
Proof.
  destruct (lcg_run_inv n seed [] ltac:(constructor)) as (Hl & Hr & Hs).
  split; [unfold len; rewrite Hl; cbn [List.length]; lia|].
  split; [assumption|]. split; [|assumption].
  now apply Profiles.bytes_of_ints_ok.
Qed.

(** An entry can be built exactly for the indices 0 to 63: a negative
    index is itself out of range, and from 64 on [i * 4] is. *)
Lemma entry_in_range (i : Z) :
  0 <= i <= 63 -> bytes_of_ints (entry_ints i) = Done (entry_ints i).
Proof.
  intros Hi.
  assert (Hall : forallb (fun i => forallb is_byte (entry_ints i))
                   (map Z.of_nat (seq 0 64)) = true)
    by (vm_compute; reflexivity).
  rewrite forallb_forall in Hall.
  specialize (Hall i). unfold bytes_of_ints.
  change (fun x => (0 <=? x) && (x <? 256)) with is_byte.
  rewrite Hall; [reflexivity|].
  apply in_map_iff. exists (Z.to_nat i). split; [lia|].
  apply in_seq. lia.
Qed.

Lemma entry_out_of_range (i : Z) :
  i < 0 \/ 63 < i -> bytes_of_ints (entry_ints i) = Raised ValueError.
Proof.
  intros Hi. unfold bytes_of_ints, entry_ints.
  cbn [app forallb].
  destruct (Z.leb_spec 0 i); cbn [andb]; [|reflexivity].
  destruct (Z.ltb_spec i 256); cbn [andb]; [|reflexivity].
  destruct (Z.leb_spec 0 (i * 2)); cbn [andb]; [|reflexivity].
  destruct (Z.ltb_spec (i * 2) 256); cbn [andb]; [|reflexivity].
  destruct (Z.leb_spec 0 (i * 3)); cbn [andb]; [|reflexivity].
  destruct (Z.ltb_spec (i * 3) 256); cbn [andb]; [|reflexivity].
  destruct (Z.leb_spec 0 (i * 4)); cbn [andb]; [|reflexivity].
  destruct (Z.ltb_spec (i * 4) 256); cbn [andb]; [|reflexivity].
  lia.
Qed.

Lemma entry_ints_len (i : Z) : len (entry_ints i) = 16.
Proof. reflexivity. Qed.

(** X12. The table loop, run over any list of indices: when every index is
    from 0 to 63 it appends one 16-byte entry per index, in order, to what
    the file holds; when some index is negative or above 63 it raises
    [ValueError], at the first such index. *)
Theorem write_entries_range (f : bytes) (indices : list Z) :
  (Forall (fun i => 0 <= i <= 63) indices ->
     write_entries f indices
       = Done (f ++ List.concat (map entry_ints indices)) /\
     len (f ++ List.concat (map entry_ints indices))
       = len f + 16 * len indices) /\
  (Exists (fun i => i < 0 \/ 63 < i) indices ->
     write_entries f indices = Raised ValueError).
Proof.
  revert f. induction indices as [|i rest IH]; intros f.
  - split.
    + intros _. cbn [write_entries map List.concat].
      rewrite app_nil_r. split; [reflexivity|].
      change (len (@nil Z)) with 0. lia.
    + intros H. inversion H.
  - cbn [write_entries map List.concat]. split.
    + intros Hall. inversion Hall as [|? ? Hi Hrest]; subst.
      rewrite (entry_in_range i Hi). cbn [bind]. unfold write.
      destruct (IH (f ++ entry_ints i)) as [Hok _].
      destruct (Hok Hrest) as [Hw Hl].
      rewrite Hw, <- app_assoc. split; [reflexivity|].
      rewrite app_assoc, Hl, len_app, entry_ints_len, len_cons. lia.
    + intros Hex.
      destruct (Z_lt_ge_dec i 0) as [Hneg|Hnn].
      { rewrite entry_out_of_range by lia. reflexivity. }
      destruct (Z_lt_ge_dec 63 i) as [Hbig|Hsmall].
      { rewrite entry_out_of_range by lia. reflexivity. }
      rewrite entry_in_range by lia. cbn [bind].
      destruct (IH (write f (entry_ints i))) as [_ Hbad].
      apply Hbad. inversion Hex as [? ? Hi|? ? Hrest]; subst;
        [lia|assumption].
Qed.

End SampleMore.
